(** * go-morse-midi: text to Morse code to a standard MIDI file

    A shallow embedding of [main.go] and the verification of its
    specification.

    Conventions of the embedding:
    - a Go [int] is a [Z] in the signed 64-bit range (the size of [int] on
      amd64 and arm64); the one operation of the program that can leave the
      range, [buffer <<= 8], is wrapped explicitly with [wrap_int];
    - a [byte] is a [Z] in [0, 256); the conversion [byte(x)] is [to_byte];
    - a Go [string] is the sequence of runes that [range] and the [strings]
      package see when they decode it, a [rune] being its code point;
    - the map [morseCode] is a [gmap];
    - a loop without an a-priori bound runs on a budget of iterations
      ([fuel]); running out of budget is the outcome [OutOfFuel];
    - a run-time panic is the outcome [Panic];
    - what the program takes from outside the repository (the Unicode case
      and white-space tables of the Go library beyond their ASCII and
      Latin-1 parts, the file system behind [os.WriteFile]) is a parameter. *)

From Stdlib Require Import ZArith Lia String Ascii.
From stdpp Require Import base option list gmap.

Local Open Scope Z_scope.

(** ** Outcomes: a small error monad *)

Inductive outcome (A : Type) : Type :=
| Ret (a : A)
| Panic
| OutOfFuel.
Arguments Ret {A} a.
Arguments Panic {A}.
Arguments OutOfFuel {A}.

Definition bind {A B : Type} (m : outcome A) (k : A → outcome B) : outcome B :=
  match m with
  | Ret a => k a
  | Panic => Panic
  | OutOfFuel => OutOfFuel
  end.

Notation "'let!' x ':=' m 'in' k" := (bind m (λ x, k))
  (at level 10, x name, m at level 100, k at level 200).

(** ** Machine integers, bytes and runes *)

Abbreviation rune := Z (only parsing).
Abbreviation byte := Z (only parsing).

(** Two's complement wrap-around of a Go [int] (64 bits). *)
Definition wrap_int (z : Z) : Z := (z + 2 ^ 63) mod 2 ^ 64 - 2 ^ 63.

(** The conversion [byte(x)] keeps the low 8 bits. *)
Definition to_byte (z : Z) : byte := z mod 256.

(** The conversion [uint32(x)] keeps the low 32 bits. *)
Definition to_uint32 (z : Z) : Z := z mod 2 ^ 32.

(** The rune of an ASCII character literal and the runes of an ASCII string
    literal. *)
Definition rune_of (c : ascii) : rune := Z.of_N (N_of_ascii c).
Definition runes (s : string) : list rune := rune_of <$> list_ascii_of_string s.

(** ** The [strings] and [unicode] functions the program calls *)

(** [unicode.ToLower]: ASCII is handled inline, the other runes go through
    the case table of the library, [lowerTable]. *)
Definition unicode_ToLower (lowerTable : rune → rune) (r : rune) : rune :=
  if r <=? 0x7F then
    if (rune_of "A" <=? r) && (r <=? rune_of "Z")
    then r + (rune_of "a" - rune_of "A") else r
  else lowerTable r.

(** [strings.ToLower] maps [unicode.ToLower] over the runes. *)
Definition ToLower (lowerTable : rune → rune) (s : list rune) : list rune :=
  unicode_ToLower lowerTable <$> s.

(** [unicode.IsSpace]: Latin-1 is handled inline, the other runes go through
    the White_Space table of the library, [spaceTable]. *)
Definition unicode_IsSpace (spaceTable : rune → bool) (r : rune) : bool :=
  if (0 <=? r) && (r <=? 0xFF) then
    bool_decide (r ∈ [0x09; 0x0A; 0x0B; 0x0C; 0x0D; 0x20; 0x85; 0xA0])
  else spaceTable r.

(** [strings.TrimSpace]: leading and trailing white space removed. *)
Fixpoint TrimLeft (isSpace : rune → bool) (s : list rune) : list rune :=
  match s with
  | [] => []
  | r :: s' => if isSpace r then TrimLeft isSpace s' else s
  end.

Definition TrimSpace (spaceTable : rune → bool) (s : list rune) : list rune :=
  let isSpace := unicode_IsSpace spaceTable in
  reverse (TrimLeft isSpace (reverse (TrimLeft isSpace s))).

(** [strings.Split(s, " ")]: the pieces between the spaces; [n] spaces give
    [n + 1] pieces, the empty string gives one empty piece. *)
Fixpoint Split (s : list rune) : list (list rune) :=
  match s with
  | [] => [[]]
  | r :: s' =>
      if r =? rune_of " " then [] :: Split s'
      else match Split s' with
           | w :: ws => (r :: w) :: ws
           | [] => [[r]]
           end
  end.

(** [strings.Join(elems, sep)]. *)
Fixpoint Join (elems : list (list rune)) (sep : list rune) : list rune :=
  match elems with
  | [] => []
  | e :: rest =>
      match rest with
      | [] => e
      | _ :: _ => e ++ sep ++ Join rest sep
      end
  end.

(** [strings.ReplaceAll(s, " ", "-")]. *)
Definition ReplaceAll_space_hyphen (s : list rune) : list rune :=
  (λ r, if r =? rune_of " " then rune_of "-" else r) <$> s.

(** ** [morseCode] and [textToMorse] *)

Definition morseCode : gmap rune (list rune) :=
  list_to_map [
    (rune_of "a", runes ".-");   (rune_of "b", runes "-...");
    (rune_of "c", runes "-.-."); (rune_of "d", runes "-..");
    (rune_of "e", runes ".");    (rune_of "f", runes "..-.");
    (rune_of "g", runes "--.");  (rune_of "h", runes "....");
    (rune_of "i", runes "..");   (rune_of "j", runes ".---");
    (rune_of "k", runes "-.-");  (rune_of "l", runes ".-..");
    (rune_of "m", runes "--");   (rune_of "n", runes "-.");
    (rune_of "o", runes "---");  (rune_of "p", runes ".--.");
    (rune_of "q", runes "--.-"); (rune_of "r", runes ".-.");
    (rune_of "s", runes "...");  (rune_of "t", runes "-");
    (rune_of "u", runes "..-");  (rune_of "v", runes "...-");
    (rune_of "w", runes ".--");  (rune_of "x", runes "-..-");
    (rune_of "y", runes "-.--"); (rune_of "z", runes "--..")
  ].

(** The table is looked up, not unfolded, during proofs. *)
#[global] Opaque morseCode.

Section Mapper.
Variable lowerTable : rune → rune.

(** The body of the inner loop: [wordSymbols] after one more [char]. *)
Definition addSymbol (wordSymbols : list (list rune)) (char : rune)
  : list (list rune) :=
  match morseCode !! char with
  | None => wordSymbols                      (* continue *)
  | Some code => wordSymbols ++ [code]
  end.

(** The body of the outer loop: [result] after one more [word]. *)
Definition addWord (result : list (list rune)) (word : list rune)
  : list (list rune) :=
  let wordSymbols := foldl addSymbol [] (ToLower lowerTable word) in
  result ++ [Join wordSymbols (runes " ")].

Definition textToMorse (text : list rune) : list rune :=
  let words := Split (ToLower lowerTable text) in
  let result := foldl addWord [] words in
  Join result (runes "/").
End Mapper.

(** ** [writeVarLength] *)

(** First loop of [writeVarLength], entered after the initial [value >>= 7]:
    [for ...; value > 0; value >>= 7 { buffer <<= 8; buffer |= ((value & 0x7F) | 0x80) }]. *)
Fixpoint pack (fuel : nat) (value buffer : Z) : outcome Z :=
  match fuel with
  | O => OutOfFuel
  | S fuel' =>
      if 0 <? value then
        let buffer := wrap_int (Z.shiftl buffer 8) in
        let buffer := Z.lor buffer (Z.lor (Z.land value 0x7F) 0x80) in
        pack fuel' (Z.shiftr value 7) buffer
      else Ret buffer
  end.

(** Second loop of [writeVarLength]:
    [for { buf = append(buf, byte(buffer)); if buffer&0x80 != 0 { buffer >>= 8 } else { break } }]. *)
Fixpoint unpack (fuel : nat) (buffer : Z) (buf : list byte) : outcome (list byte) :=
  match fuel with
  | O => OutOfFuel
  | S fuel' =>
      let buf := buf ++ [to_byte buffer] in
      if negb (Z.land buffer 0x80 =? 0) then unpack fuel' (Z.shiftr buffer 8) buf
      else Ret buf
  end.

Definition writeVarLength (fuel : nat) (value : Z) : outcome (list byte) :=
  let buf := [] in
  let buffer := Z.land value 0x7F in
  let! buffer := pack fuel (Z.shiftr value 7) buffer in
  unpack fuel buffer buf.

(** ** [createMIDI] *)

Definition microsecondsPerMinute : Z := 60000000.

Definition ticksPerBeat : Z := 96.
Definition dot : Z := Z.quot ticksPerBeat 2.
Definition dash : Z := dot * 3.
Definition pause : Z := dot * 7.
Definition note : Z := 76.
Definition velocity : Z := 100.

(** The variables the symbol loop and the closure [addNote] share. *)
Record builder : Type := Builder { track : list byte; time : Z }.

(** The tempo event; the division panics on [bpm = 0]. *)
Definition setTempo (bpm : Z) : outcome (list byte) :=
  if bpm =? 0 then Panic
  else
    let microsecondsPerQuarterNote := Z.quot microsecondsPerMinute bpm in
    Ret [0x00; 0xFF; 0x51; 0x03;
         to_byte (Z.land (Z.shiftr microsecondsPerQuarterNote 16) 0xFF);
         to_byte (Z.land (Z.shiftr microsecondsPerQuarterNote 8) 0xFF);
         to_byte (Z.land microsecondsPerQuarterNote 0xFF)].

Definition addNote (fuel : nat) (st : builder) (duration : Z) : outcome builder :=
  let! delta := writeVarLength fuel (time st) in
  let track := track st ++ delta in
  let track := track ++ [0x90; to_byte note; to_byte velocity] in
  let! dur := writeVarLength fuel duration in
  let track := track ++ dur in
  let track := track ++ [0x80; to_byte note; 0x00] in
  Ret (Builder track (time st)).

(** One iteration of [for _, symbol := range morse { switch symbol ... }]. *)
Definition onSymbol (fuel : nat) (st : builder) (symbol : rune) : outcome builder :=
  if symbol =? rune_of "." then
    let! st := addNote fuel st dot in Ret (Builder (track st) dot)
  else if symbol =? rune_of "-" then
    let! st := addNote fuel st dash in Ret (Builder (track st) dot)
  else if symbol =? rune_of " " then Ret (Builder (track st) (4 * dot))
  else if symbol =? rune_of "/" then Ret (Builder (track st) pause)
  else Ret st.

Fixpoint symbolLoop (fuel : nat) (morse : list rune) (st : builder) : outcome builder :=
  match morse with
  | [] => Ret st
  | symbol :: rest =>
      let! st := onSymbol fuel st symbol in symbolLoop fuel rest st
  end.

(** The track buffer: tempo event, note events, end of track. *)
Definition buildTrack (fuel : nat) (morse : list rune) (bpm : Z) : outcome (list byte) :=
  let! tempo := setTempo bpm in
  let! st := symbolLoop fuel morse (Builder tempo 0) in
  let! delta := writeVarLength fuel (time st) in
  let track := track st ++ delta in
  Ret (track ++ [0xFF; 0x2F; 0x00]).

(** [binary.BigEndian.PutUint32]. *)
Definition PutUint32 (v : Z) : list byte :=
  [to_byte (Z.shiftr v 24); to_byte (Z.shiftr v 16); to_byte (Z.shiftr v 8); to_byte v].

Definition header : list byte :=
  runes "MThd" ++ [0x00; 0x00; 0x00; 0x06; 0x00; 0x00; 0x00; 0x01;
                   0x00; to_byte ticksPerBeat].

Definition trackHeader : list byte := runes "MTrk".

(** The buffer handed to [os.WriteFile]. *)
Definition midiData (fuel : nat) (morse : list rune) (bpm : Z) : outcome (list byte) :=
  let! track := buildTrack fuel morse bpm in
  let trackLength := PutUint32 (to_uint32 (Z.of_nat (length track))) in
  let data := header ++ trackHeader in
  let data := data ++ trackLength in
  Ret (data ++ track).

Definition error : Type := list rune.

Section Program.
Variable lowerTable : rune → rune.
Variable spaceTable : rune → bool.
(** The file system and [os.WriteFile(name, data, perm)] on it. *)
Variable FS : Type.
Variable os_WriteFile : FS → list rune → list byte → Z → FS * option error.

Definition createMIDI (fuel : nat) (morse filename : list rune) (bpm : Z) (fs : FS)
  : outcome (FS * option error) :=
  let! data := midiData fuel morse bpm in
  Ret (os_WriteFile fs filename data 420) (* perm 0644 *).

(** What a run leaves behind: the lines on standard output, the file
    system and the exit code. *)
Record run : Type := Run { stdout : list (list rune); files : FS; exit_code : Z }.

(** The [Action] of the command, on the positional arguments and the value
    of the [--bpm] flag: the lines printed, the file system and the error
    returned. *)
Definition Action (fuel : nat) (args : list (list rune)) (bpm : Z) (fs : FS)
  : outcome (list (list rune) * FS * option error) :=
  let text := Join args (runes " ") in
  let out := [runes "Input text: " ++ text] in
  if bool_decide (TrimSpace spaceTable text = []) then
    Ret (out, fs,
         Some (runes "no text provided, please provide text to convert to Morse code"))
  else
    let morse := textToMorse lowerTable text in
    let out := out ++ [runes "Morse code: " ++ morse] in
    let outputFile := ReplaceAll_space_hyphen text ++ runes ".mid" in
    let! written := createMIDI fuel morse outputFile bpm fs in
    let '(fs, err) := written in
    match err with
    | Some e => Ret (out ++ [runes "Error writing MIDI file: " ++ e], fs, err)
    | None => Ret (out ++ [runes "MIDI file saved as " ++ outputFile], fs, err)
    end.

Definition main (fuel : nat) (args : list (list rune)) (bpm : Z) (fs : FS)
  : outcome run :=
  let! done := Action fuel args bpm fs in
  let '(out, fs, err) := done in
  match err with
  | Some e =>
      Ret (Run (out ++ [runes "Error: " ++ e; runes "Use --help for more information."])
               fs 1)
  | None => Ret (Run out fs 0)
  end.
End Program.

Arguments Run {FS} stdout files exit_code.
Arguments stdout {FS} r.
Arguments files {FS} r.
Arguments exit_code {FS} r.

(** ** What the specification speaks of *)

(** *** Variable-length quantities as the format defines them

    The base-128 digits of the value, most significant first, every digit but
    the last carrying the continuation flag [0x80]. *)

(** The continuation bytes for the digits of [v] ([k] bounds their number). *)
Fixpoint cont (k : nat) (v : Z) : list byte :=
  match k with
  | O => []
  | S k' => if 0 <? v then cont k' (v / 128) ++ [v mod 128 + 128] else []
  end.

Definition vlq (n : Z) : list byte :=
  cont (Z.to_nat (Z.log2 n)) (n / 128) ++ [n mod 128].

(** The inverse algorithm: accumulate 7 bits per byte while the high bit is
    set, stop at the first byte whose high bit is clear.  Returns the value
    and the bytes left unread. *)
Fixpoint decode_from (acc : Z) (bs : list byte) : option (Z * list byte) :=
  match bs with
  | [] => None
  | b :: rest =>
      let acc := acc * 128 + Z.land b 0x7F in
      if Z.land b 0x80 =? 0 then Some (acc, rest) else decode_from acc rest
  end.

Definition decode (bs : list byte) : option (Z * list byte) := decode_from 0 bs.

Definition is_byte (b : Z) : Prop := 0 ≤ b < 256.
(** A continuation byte and a terminal byte. *)
Definition is_cont (b : Z) : Prop := 128 ≤ b < 256.
Definition is_term (b : Z) : Prop := 0 ≤ b < 128.
Definition high_bit (b : Z) : bool := negb (Z.land b 0x80 =? 0).

(** The value of [buffer] when its bytes, from the least significant one,
    are [l]. *)
Definition le_val (l : list byte) : Z := foldr (λ b acc, b + 256 * acc) 0 l.

(** The number a big-endian byte field holds. *)
Definition be_val (l : list byte) : Z := foldl (λ acc b, acc * 256 + b) 0 l.

(** *** The track builder as a state machine over Morse symbols *)

Inductive symbol : Type := Dot | Dash | Gap | Sep.

Definition symbol_rune (s : symbol) : rune :=
  match s with
  | Dot => rune_of "."
  | Dash => rune_of "-"
  | Gap => rune_of " "
  | Sep => rune_of "/"
  end.

(** A note event: delta-time, note-on, duration, note-off. *)
Definition note_event (delta duration : Z) : list byte :=
  vlq delta ++ [0x90; 76; 100] ++ vlq duration ++ [0x80; 76; 0x00].

(** The bytes after the tempo event, from a pending delta-time on. *)
Fixpoint events (pending : Z) (ms : list symbol) : list byte :=
  match ms with
  | [] => vlq pending ++ [0xFF; 0x2F; 0x00]
  | Dot :: rest => note_event pending 48 ++ events 48 rest
  | Dash :: rest => note_event pending 144 ++ events 48 rest
  | Gap :: rest => events 192 rest
  | Sep :: rest => events 336 rest
  end.

(** The same on any string: a rune that is no Morse symbol changes nothing. *)
Fixpoint rune_events (pending : Z) (morse : list rune) : list byte :=
  match morse with
  | [] => vlq pending ++ [0xFF; 0x2F; 0x00]
  | r :: rest =>
      if r =? rune_of "." then note_event pending 48 ++ rune_events 48 rest
      else if r =? rune_of "-" then note_event pending 144 ++ rune_events 48 rest
      else if r =? rune_of " " then rune_events 192 rest
      else if r =? rune_of "/" then rune_events 336 rest
      else rune_events pending rest
  end.

(** A track buffer of [2 ^ 32 + 11] bytes: [2 ^ 29] dots. *)
Definition many_dots : list rune := repeat (rune_of ".") (Z.to_nat (2 ^ 29)).

(** *** The symbol mapper *)

(** The codes of the recognized letters of a word; the other characters
    leave nothing behind. *)
Definition letter_codes (word : list rune) : list (list rune) :=
  omap (λ char, morseCode !! char) word.

Section MapperSpec.
Variable lowerTable : rune → rune.

(** A word: its codes joined by a single space. *)
Definition word_spec (word : list rune) : list rune :=
  Join (letter_codes (ToLower lowerTable word)) (runes " ").

(** A text: its words joined by ['/']. *)
Definition morse_spec (text : list rune) : list rune :=
  Join (word_spec <$> Split (ToLower lowerTable text)) (runes "/").
End MapperSpec.

Definition dot_or_dash (r : rune) : Prop := r = rune_of "." ∨ r = rune_of "-".

Definition morse_alphabet (r : rune) : Prop :=
  r = rune_of "." ∨ r = rune_of "-" ∨ r = rune_of " " ∨ r = rune_of "/".

(** Changing the case of the ASCII letters of a text. *)
Definition ascii_upper (r : rune) : rune :=
  if (rune_of "a" <=? r) && (r <=? rune_of "z") then r - 32 else r.
Definition ascii_lower (r : rune) : rune :=
  if (rune_of "A" <=? r) && (r <=? rune_of "Z") then r + 32 else r.

(** The number of spaces of a string. *)
Definition spaces (s : list rune) : nat :=
  length (filter (λ r, r = rune_of " ") s).

(** *** Instances of the parameters, for concrete runs *)

(** Case and white-space tables without entries beyond ASCII and Latin-1. *)
Definition identity_table : rune → rune := λ r, r.
Definition no_space_table : rune → bool := λ _, false.

(** A file system in memory, on which every write succeeds. *)
Definition mem_fs : Type := list (list rune * list byte).
Definition mem_WriteFile (fs : mem_fs) (name : list rune) (data : list byte) (perm : Z)
  : mem_fs * option error := ((name, data) :: fs, None).

(** *** Further notions used by the properties of the code *)

(** The value of [buffer] when its bytes, from the least significant one,
    are [l] and every bit above them is set (a negative buffer). *)
Definition sval (l : list byte) : Z := foldr (λ b acc, b + 256 * acc) (-1) l.

(** The continuation bytes of the [k] low base-128 digits of [v], most
    significant first. *)
Fixpoint fixed_cont (k : nat) (v : Z) : list byte :=
  match k with
  | O => []
  | S k' => fixed_cont k' (v / 128) ++ [v mod 128 + 128]
  end.

(** An ASCII letter or the space. *)
Definition letter_or_space (r : rune) : Prop :=
  r = rune_of " " ∨ 65 ≤ r ≤ 90 ∨ 97 ≤ r ≤ 122.

(** A lower-case ASCII letter. *)
Definition lower_letter (r : rune) : Prop := 97 ≤ r ≤ 122.

(** A symbol that emits no note: the space or ['/']. *)
Definition silent (r : rune) : Prop := r = rune_of " " ∨ r = rune_of "/".

(** A rune that is no Morse symbol. *)
Definition no_symbol (r : rune) : Prop :=
  r ≠ rune_of "." ∧ r ≠ rune_of "-" ∧ r ≠ rune_of " " ∧ r ≠ rune_of "/".

(** * Verification *)

(** ** Bit operations as arithmetic *)

Section Bits.

Lemma land_small_shifted (x y m : Z) :
  0 ≤ m → 0 ≤ x < 2 ^ m → Z.land x (y * 2 ^ m) = 0.
Proof.
  intros Hm Hx. apply Z.bits_inj'. intros i Hi.
  rewrite Z.land_spec, Z.bits_0.
  destruct (Z.lt_ge_cases i m) as [Hlt | Hge].
  - rewrite Z.mul_pow2_bits_low by lia. apply andb_false_r.
  - rewrite <- (Z.mod_small x (2 ^ m)) by lia.
    rewrite Z.mod_pow2_bits_high by lia. reflexivity.
Qed.

Lemma land_80_small (x : Z) : 0 ≤ x < 128 → Z.land x 0x80 = 0.
Proof. intros Hx. apply (land_small_shifted x 1 7); lia. Qed.

Lemma lor_flag (x : Z) : 0 ≤ x < 128 → Z.lor x 0x80 = x + 128.
Proof.
  intros Hx. symmetry. apply Z.add_nocarry_lor. apply land_80_small, Hx.
Qed.

Lemma land_7F (v : Z) : Z.land v 0x7F = v mod 128.
Proof. change 0x7F with (Z.ones 7). rewrite Z.land_ones by lia. reflexivity. Qed.

Lemma land_FF (v : Z) : Z.land v 0xFF = v mod 256.
Proof. change 0xFF with (Z.ones 8). rewrite Z.land_ones by lia. reflexivity. Qed.

Lemma push_byte (b c : Z) :
  0 ≤ c < 256 → Z.lor (b * 256) c = c + 256 * b.
Proof.
  intros Hc. rewrite <- Z.add_nocarry_lor; [lia |].
  rewrite Z.land_comm. apply (land_small_shifted c b 8); lia.
Qed.

Lemma land_80_low (b r : Z) :
  0 ≤ b < 256 → Z.land (b + 256 * r) 0x80 = if b <? 128 then 0 else 128.
Proof.
  intros Hb.
  assert (Hmod : Z.land (b + 256 * r) 0x80 = Z.land b 0x80).
  { change 0x80 with (Z.land (Z.ones 8) 0x80).
    rewrite !Z.land_assoc, !Z.land_ones by lia.
    change (2 ^ 8) with 256.
    replace ((b + 256 * r) mod 256) with (b mod 256); [reflexivity |].
    rewrite (Z.mul_comm 256), Z.mod_add by lia. reflexivity. }
  rewrite Hmod. destruct (Z.ltb_spec b 128) as [Hlt | Hge].
  - apply land_80_small. lia.
  - replace b with ((b - 128) + 128) at 1 by lia.
    rewrite <- lor_flag by lia.
    rewrite Z.land_lor_distr_l, land_80_small by lia.
    reflexivity.
Qed.

Lemma land_80_byte (b : Z) :
  0 ≤ b < 256 → Z.land b 0x80 = if b <? 128 then 0 else 128.
Proof. intros Hb. rewrite <- (land_80_low b 0 Hb). f_equal. lia. Qed.

Lemma wrap_int_small (z : Z) : - 2 ^ 63 ≤ z < 2 ^ 63 → wrap_int z = z.
Proof. intros Hz. unfold wrap_int. rewrite Z.mod_small; lia. Qed.

End Bits.

(** ** The variable-length quantity encoder *)

Section VLQ.

Lemma cont_bytes k v : Forall is_cont (cont k v).
Proof.
  revert v. induction k as [| k IH]; intros v; simpl; [constructor |].
  destruct (0 <? v); [| constructor].
  apply Forall_app. split; [apply IH |].
  repeat constructor; unfold is_cont; pose proof (Z.mod_pos_bound v 128); lia.
Qed.

Lemma cont_length k v : (length (cont k v) ≤ k)%nat.
Proof.
  revert v. induction k as [| k IH]; intros v; simpl; [lia |].
  destruct (0 <? v); simpl; [| lia].
  rewrite length_app. simpl. specialize (IH (v / 128)). lia.
Qed.

(** The digits do not depend on the bound, once it is large enough. *)
Lemma cont_stable k k' v :
  0 ≤ v < 128 ^ Z.of_nat k → 0 ≤ v < 128 ^ Z.of_nat k' → cont k v = cont k' v.
Proof.
  revert k' v. induction k as [| k IH]; intros k' v Hk Hk'.
  - assert (v = 0) by (simpl in Hk; lia). subst v.
    destruct k'; reflexivity.
  - destruct k' as [| k'].
    + assert (v = 0) by (simpl in Hk'; lia). subst v. reflexivity.
    + simpl. destruct (0 <? v); [| reflexivity].
      f_equal. rewrite Nat2Z.inj_succ, Z.pow_succ_r in Hk, Hk' by lia.
      apply IH; split; try (apply Z.div_pos; lia);
        apply Z.div_lt_upper_bound; lia.
Qed.

Lemma le_val_cons b l : le_val (b :: l) = b + 256 * le_val l.
Proof. reflexivity. Qed.

(** The buffer holds fewer than [8 * length] bits when its last byte is a
    terminal byte. *)
Lemma le_val_bound cs t :
  Forall is_cont cs → is_term t →
  0 ≤ le_val (cs ++ [t]) < 2 ^ (8 * Z.of_nat (length cs) + 7).
Proof.
  intros Hcs Ht. induction Hcs as [| c cs Hc Hcs IH].
  - simpl. unfold is_term in Ht. lia.
  - rewrite <- app_comm_cons, le_val_cons. simpl length.
    replace (8 * Z.of_nat (S (length cs)) + 7)
      with (8 + (8 * Z.of_nat (length cs) + 7)) by lia.
    rewrite Z.pow_add_r by lia. unfold is_cont in Hc.
    change (2 ^ 8) with 256. lia.
Qed.

(** The first loop pushes the continuation bytes of [v] below the bytes
    already in the buffer, as long as the buffer stays within 8 bytes. *)
Lemma pack_spec k : ∀ fuel v cs t,
  (k < fuel)%nat → 0 ≤ v < 128 ^ Z.of_nat k →
  Forall is_cont cs → is_term t → (length cs + k ≤ 7)%nat →
  pack fuel v (le_val (cs ++ [t])) = Ret (le_val (cont k v ++ cs ++ [t])).
Proof.
  induction k as [| k IH]; intros fuel v cs t Hfuel Hv Hcs Ht Hlen.
  - assert (v = 0) by (simpl in Hv; lia). subst v.
    destruct fuel; [lia |]. reflexivity.
  - destruct fuel as [| fuel]; [lia |]. simpl.
    destruct (Z.ltb_spec 0 v) as [Hpos | Hzero]; [| reflexivity].
    pose proof (le_val_bound cs t Hcs Ht) as Hb.
    assert (Hpow : 2 ^ (8 * Z.of_nat (length cs) + 7) ≤ 2 ^ 55)
      by (apply Z.pow_le_mono_r; lia).
    rewrite Z.shiftl_mul_pow2, wrap_int_small by lia.
    pose proof (Z.mod_pos_bound v 128 ltac:(lia)) as Hm.
    rewrite land_7F, lor_flag by lia.
    change (2 ^ 8) with 256. rewrite push_byte by lia.
    rewrite Z.shiftr_div_pow2 by lia. change (2 ^ 7) with 128.
    rewrite <- le_val_cons, app_comm_cons.
    rewrite Nat2Z.inj_succ, Z.pow_succ_r in Hv by lia.
    rewrite IH.
    + rewrite <- app_assoc. reflexivity.
    + lia.
    + split; [apply Z.div_pos; lia | apply Z.div_lt_upper_bound; lia].
    + constructor; [unfold is_cont; lia | assumption].
    + assumption.
    + simpl. lia.
Qed.

Lemma pack_terminal k fuel v t :
  (k < fuel)%nat → 0 ≤ v < 128 ^ Z.of_nat k → is_term t → (k ≤ 7)%nat →
  pack fuel v t = Ret (le_val (cont k v ++ [t])).
Proof.
  intros Hfuel Hv Ht Hk.
  replace t with (le_val ([] ++ [t])) at 1 by (unfold le_val; simpl; lia).
  apply pack_spec; auto.
Qed.

(** The second loop reads the bytes back from the least significant one and
    stops at the terminal byte. *)
Lemma unpack_spec cs : ∀ fuel t buf,
  (length cs < fuel)%nat → Forall is_cont cs → is_term t →
  unpack fuel (le_val (cs ++ [t])) buf = Ret (buf ++ cs ++ [t]).
Proof.
  induction cs as [| c cs IH]; intros fuel t buf Hfuel Hcs Ht;
    (destruct fuel as [| fuel]; [simpl in Hfuel; lia |]).
  - unfold is_term in Ht. simpl.
    replace (t + 256 * 0) with t by lia.
    rewrite land_80_small by lia. simpl.
    unfold to_byte. rewrite Z.mod_small by lia. reflexivity.
  - inversion Hcs as [| ? ? Hc Hcs']; subst. unfold is_cont in Hc.
    rewrite <- app_comm_cons, le_val_cons. simpl.
    rewrite land_80_low by lia.
    destruct (Z.ltb_spec c 128) as [? | _]; [lia |]. simpl.
    rewrite Z.shiftr_div_pow2 by lia. change (2 ^ 8) with 256.
    replace ((c + 256 * le_val (cs ++ [t])) / 256) with (le_val (cs ++ [t])).
    2:{ symmetry. rewrite Z.add_comm, Z.mul_comm. rewrite Z.div_add_l by lia.
        rewrite Z.div_small by lia. lia. }
    unfold to_byte.
    replace ((c + 256 * le_val (cs ++ [t])) mod 256) with c.
    2:{ rewrite (Z.mul_comm 256), Z.mod_add by lia.
        rewrite Z.mod_small by lia. reflexivity. }
    rewrite IH by (simpl in Hfuel; auto; lia).
    rewrite <- app_assoc. reflexivity.
Qed.

Lemma log2_digits n :
  0 ≤ n → 0 ≤ n / 128 < 128 ^ Z.of_nat (Z.to_nat (Z.log2 n)).
Proof.
  intros Hn. split; [apply Z.div_pos; lia |].
  destruct (Z.eq_dec n 0) as [-> | Hnz]; [reflexivity |].
  pose proof (Z.log2_nonneg n) as Hl.
  rewrite Z2Nat.id by lia.
  destruct (Z.log2_spec n ltac:(lia)) as [_ Hhi].
  apply Z.div_lt_upper_bound; [lia |].
  destruct (Z.eq_dec (Z.log2 n) 0) as [E | NE].
  - rewrite E in *. simpl in *. lia.
  - eapply Z.lt_le_trans; [exact Hhi |].
    replace (Z.succ (Z.log2 n)) with (Z.log2 n + 1) by lia.
    change 128 with (2 ^ 7) at 2. rewrite <- Z.pow_mul_r by lia.
    change 128 with (2 ^ 7). rewrite <- Z.pow_add_r by lia.
    apply Z.pow_le_mono_r; lia.
Qed.

(** [writeVarLength] computes the encoding of the format, on every value
    that fits its 64-bit buffer (8 bytes of 7 bits). *)
Lemma writeVarLength_vlq fuel n :
  (8 ≤ fuel)%nat → 0 ≤ n < 2 ^ 56 → writeVarLength fuel n = Ret (vlq n).
Proof.
  intros Hfuel Hn. unfold writeVarLength, vlq.
  rewrite land_7F, Z.shiftr_div_pow2 by lia. change (2 ^ 7) with 128.
  pose proof (Z.mod_pos_bound n 128 ltac:(lia)) as Hm.
  assert (Hq : 0 ≤ n / 128 < 128 ^ Z.of_nat 7).
  { change (128 ^ Z.of_nat 7) with 562949953421312.
    change (2 ^ 56) with 72057594037927936 in Hn.
    split; [apply Z.div_pos; lia | apply Z.div_lt_upper_bound; lia]. }
  rewrite (cont_stable _ 7 (n / 128)) by (apply log2_digits || exact Hq; lia).
  rewrite (pack_terminal 7); [| lia | exact Hq | unfold is_term; lia | lia].
  unfold bind.
  rewrite unpack_spec; [reflexivity | | apply cont_bytes | unfold is_term; lia].
  eapply Nat.le_lt_trans; [apply cont_length | lia].
Qed.

(** *** Decoding *)

Lemma decode_from_cont cs : ∀ acc l,
  Forall is_cont cs →
  decode_from acc (cs ++ l) =
  decode_from (foldl (λ a b, a * 128 + (b - 128)) acc cs) l.
Proof.
  induction cs as [| c cs IH]; intros acc l Hcs; [reflexivity |].
  inversion Hcs as [| ? ? Hc Hcs']; subst. unfold is_cont in Hc. simpl.
  rewrite land_80_byte by lia.
  destruct (Z.ltb_spec c 128) as [? | _]; [lia |]. simpl.
  rewrite IH by assumption. f_equal. rewrite land_7F.
  f_equal. Z.div_mod_to_equations. lia.
Qed.

Lemma cont_value k : ∀ v,
  0 ≤ v < 128 ^ Z.of_nat k → foldl (λ a b, a * 128 + (b - 128)) 0 (cont k v) = v.
Proof.
  induction k as [| k IH]; intros v Hv.
  - simpl in *. lia.
  - simpl. destruct (Z.ltb_spec 0 v) as [Hpos | Hzero]; [| simpl; lia].
    rewrite Nat2Z.inj_succ, Z.pow_succ_r in Hv by lia.
    rewrite foldl_app. simpl. rewrite IH.
    + Z.div_mod_to_equations. lia.
    + split; [apply Z.div_pos; lia | apply Z.div_lt_upper_bound; lia].
Qed.

Lemma decode_vlq n : 0 ≤ n → decode (vlq n) = Some (n, []).
Proof.
  intros Hn. unfold decode, vlq.
  rewrite decode_from_cont by apply cont_bytes.
  rewrite cont_value by (apply log2_digits; lia).
  pose proof (Z.mod_pos_bound n 128 ltac:(lia)) as Hm.
  simpl. rewrite land_80_small, land_7F by lia. simpl.
  do 2 f_equal. Z.div_mod_to_equations. lia.
Qed.

(** *** Shape and minimality *)

Lemma cont_zero k : cont k 0 = [].
Proof. destruct k; reflexivity. Qed.

Lemma high_bit_cont b : is_cont b → high_bit b = true.
Proof.
  unfold is_cont, high_bit. intros Hb. rewrite land_80_byte by lia.
  destruct (Z.ltb_spec b 128); [lia | reflexivity].
Qed.

Lemma high_bit_term b : is_term b → high_bit b = false.
Proof.
  unfold is_term, high_bit. intros Hb. rewrite land_80_small by lia. reflexivity.
Qed.

Lemma cont_head k : ∀ v,
  0 < v < 128 ^ Z.of_nat k → ∃ c rest, cont k v = c :: rest ∧ c ≠ 128.
Proof.
  induction k as [| k IH]; intros v Hv; [simpl in Hv; lia |].
  simpl. destruct (Z.ltb_spec 0 v) as [_ | ?]; [| lia].
  rewrite Nat2Z.inj_succ, Z.pow_succ_r in Hv by lia.
  destruct (Z.eq_dec (v / 128) 0) as [E | NE].
  - rewrite E, cont_zero. simpl. eexists _, _. split; [reflexivity |].
    Z.div_mod_to_equations. lia.
  - destruct (IH (v / 128)) as (c & rest & -> & Hc).
    + split; [| apply Z.div_lt_upper_bound; lia].
      pose proof (Z.div_pos v 128). lia.
    + eexists _, _. split; [reflexivity | exact Hc].
Qed.

Lemma vlq_head n : 0 ≤ n → head (vlq n) ≠ Some 0x80.
Proof.
  intros Hn. unfold vlq.
  destruct (Z.eq_dec (n / 128) 0) as [E | NE].
  - rewrite E, cont_zero. simpl. intros [= H].
    revert E H. Z.div_mod_to_equations. lia.
  - destruct (cont_head (Z.to_nat (Z.log2 n)) (n / 128)) as (c & rest & -> & Hc).
    + pose proof (log2_digits n Hn). lia.
    + simpl. congruence.
Qed.

Lemma cont_lower k : ∀ v,
  0 < v → 128 ^ Z.of_nat (length (cont k v)) ≤ 128 * v.
Proof.
  induction k as [| k IH]; intros v Hv; [simpl; lia |].
  simpl. destruct (Z.ltb_spec 0 v) as [_ | ?]; [| lia].
  rewrite length_app, Nat2Z.inj_add. simpl length.
  rewrite Z.pow_add_r by lia. change (128 ^ Z.of_nat 1) with 128.
  destruct (Z.eq_dec (v / 128) 0) as [E | NE].
  - rewrite E, cont_zero. simpl. lia.
  - pose proof (Z.div_pos v 128).
    specialize (IH (v / 128) ltac:(lia)).
    assert (128 * (v / 128) ≤ v) by (Z.div_mod_to_equations; lia). lia.
Qed.

Lemma decode_from_upper bs : ∀ acc n rest,
  0 ≤ acc → decode_from acc bs = Some (n, rest) →
  (length rest < length bs)%nat ∧
  n < (acc + 1) * 128 ^ Z.of_nat (length bs - length rest).
Proof.
  induction bs as [| b bs IH]; intros acc n rest Hacc Hdec; [discriminate |].
  simpl in Hdec. rewrite land_7F in Hdec.
  pose proof (Z.mod_pos_bound b 128 ltac:(lia)) as Hm.
  destruct (Z.land b 128 =? 0).
  - injection Hdec as <- <-. simpl length. split; [lia |].
    replace (S (length bs) - length bs)%nat with 1%nat by lia.
    change (128 ^ Z.of_nat 1) with 128. lia.
  - apply IH in Hdec as [Hlen Hn]; [| lia]. simpl length. split; [lia |].
    replace (S (length bs) - length rest)%nat
      with (S (length bs - length rest)) by lia.
    rewrite Nat2Z.inj_succ, Z.pow_succ_r by lia.
    pose proof (Z.pow_pos_nonneg 128 (Z.of_nat (length bs - length rest))).
    nia.
Qed.

Lemma vlq_minimal n bs :
  0 ≤ n → decode bs = Some (n, []) → (length (vlq n) ≤ length bs)%nat.
Proof.
  intros Hn Hdec. apply decode_from_upper in Hdec as [Hlen Hup]; [| lia].
  simpl in Hlen, Hup. rewrite Nat.sub_0_r in Hup.
  unfold vlq. rewrite length_app. simpl length.
  destruct (Z.eq_dec (n / 128) 0) as [E | NE].
  - rewrite E, cont_zero. simpl. lia.
  - pose proof (Z.div_pos n 128).
    pose proof (cont_lower (Z.to_nat (Z.log2 n)) (n / 128) ltac:(lia)) as Hlow.
    assert (128 * (n / 128) ≤ n) by (Z.div_mod_to_equations; lia).
    assert (Hlt : 128 ^ Z.of_nat (length (cont (Z.to_nat (Z.log2 n)) (n / 128)))
                  < 128 ^ Z.of_nat (length bs)) by lia.
    apply Z.pow_lt_mono_r_iff in Hlt; lia.
Qed.

Lemma vlq_bytes n : 0 ≤ n → Forall is_byte (vlq n).
Proof.
  intros Hn. unfold vlq. apply Forall_app. split.
  - eapply Forall_impl; [apply cont_bytes |].
    unfold is_cont, is_byte. intros; lia.
  - repeat constructor; unfold is_byte;
      pose proof (Z.mod_pos_bound n 128); lia.
Qed.

(** *** Beyond 8 bytes of 7 bits the buffer overflows

    At [2 ^ 56] the terminal byte is shifted out of the 64-bit buffer, the
    buffer ends up as [-1], and the second loop never sees a byte with the
    high bit clear. *)

Lemma unpack_minus_one fuel : ∀ buf, unpack fuel (-1) buf = OutOfFuel.
Proof. induction fuel as [| fuel IH]; intros buf; [reflexivity | apply IH]. Qed.

Lemma writeVarLength_overflow fuel : writeVarLength fuel (2 ^ 56) = OutOfFuel.
Proof.
  do 9 (destruct fuel as [| fuel]; [reflexivity |]).
  vm_compute. apply unpack_minus_one.
Qed.

End VLQ.

(** C1: [writeVarLength] reproduces the canonical test vectors of the format:
    0 gives [0x00], 64 gives [0x40], 127 gives [0x7F], 128 gives [0x81 0x00],
    8192 gives [0xC0 0x00], 16383 gives [0xFF 0x7F] and 16384 gives
    [0x81 0x80 0x00], on every loop budget of at least 8 iterations. *)
Theorem C1_vlq_test_vectors (fuel : nat) :
  (8 ≤ fuel)%nat →
  writeVarLength fuel 0 = Ret [0x00] ∧
  writeVarLength fuel 64 = Ret [0x40] ∧
  writeVarLength fuel 127 = Ret [0x7F] ∧
  writeVarLength fuel 128 = Ret [0x81; 0x00] ∧
  writeVarLength fuel 8192 = Ret [0xC0; 0x00] ∧
  writeVarLength fuel 16383 = Ret [0xFF; 0x7F] ∧
  writeVarLength fuel 16384 = Ret [0x81; 0x80; 0x00].
Proof.
  intros Hfuel.
  repeat split; rewrite writeVarLength_vlq by (assumption || (cbv; split; congruence));
    reflexivity.
Qed.

Lemma C1_vlq_test_vectors_witness :
  (8 ≤ 8)%nat ∧
  writeVarLength 8 0 = Ret [0x00] ∧
  writeVarLength 8 64 = Ret [0x40] ∧
  writeVarLength 8 127 = Ret [0x7F] ∧
  writeVarLength 8 128 = Ret [0x81; 0x00] ∧
  writeVarLength 8 8192 = Ret [0xC0; 0x00] ∧
  writeVarLength 8 16383 = Ret [0xFF; 0x7F] ∧
  writeVarLength 8 16384 = Ret [0x81; 0x80; 0x00].
Proof. split; [lia | apply (C1_vlq_test_vectors 8); lia]. Defined.

(** C2: for every integer [n] with [0 ≤ n < 2 ^ 56], [writeVarLength]
    returns bytes that the inverse algorithm decodes to exactly [n], reading
    all of them; every byte but the last has its high bit set and the last
    has it clear; there is no leading continuation byte without payload
    ([0x80]); and no byte sequence that decodes to [n] is shorter. *)
Theorem C2_vlq_roundtrip_minimal (fuel : nat) (n : Z) :
  (8 ≤ fuel)%nat → 0 ≤ n < 2 ^ 56 →
  ∃ bs,
    writeVarLength fuel n = Ret bs ∧
    decode bs = Some (n, []) ∧
    Forall is_byte bs ∧
    (∃ cs t, bs = cs ++ [t] ∧
             Forall (λ b, high_bit b = true) cs ∧ high_bit t = false) ∧
    head bs ≠ Some 0x80 ∧
    ∀ bs', decode bs' = Some (n, []) → (length bs ≤ length bs')%nat.
Proof.
  intros Hfuel Hn. exists (vlq n).
  split; [apply writeVarLength_vlq; assumption |].
  split; [apply decode_vlq; lia |].
  split; [apply vlq_bytes; lia |].
  split.
  - exists (cont (Z.to_nat (Z.log2 n)) (n / 128)), (n mod 128).
    split; [reflexivity |]. split.
    + eapply Forall_impl; [apply cont_bytes | apply high_bit_cont].
    + apply high_bit_term. unfold is_term.
      pose proof (Z.mod_pos_bound n 128). lia.
  - split; [apply vlq_head; lia |].
    intros bs' Hdec. apply vlq_minimal; [lia | assumption].
Qed.

Lemma C2_vlq_roundtrip_minimal_witness :
  (8 ≤ 8)%nat ∧ 0 ≤ 16384 < 2 ^ 56 ∧
  ∃ bs,
    writeVarLength 8 16384 = Ret bs ∧
    decode bs = Some (16384, []) ∧
    Forall is_byte bs ∧
    (∃ cs t, bs = cs ++ [t] ∧
             Forall (λ b, high_bit b = true) cs ∧ high_bit t = false) ∧
    head bs ≠ Some 0x80 ∧
    ∀ bs', decode bs' = Some (16384, []) → (length bs ≤ length bs')%nat.
Proof.
  split; [lia |]. split; [split; [lia | reflexivity] |].
  apply (C2_vlq_roundtrip_minimal 8 16384); [lia | split; [lia | reflexivity]].
Defined.

(** ** The track builder *)

Section Track.

Lemma setTempo_ok bpm :
  bpm ≠ 0 →
  setTempo bpm =
  Ret [0x00; 0xFF; 0x51; 0x03;
       (60000000 ÷ bpm) / 65536 mod 256;
       (60000000 ÷ bpm) / 256 mod 256;
       (60000000 ÷ bpm) mod 256].
Proof.
  intros Hbpm. unfold setTempo, microsecondsPerMinute, to_byte.
  destruct (Z.eqb_spec bpm 0) as [? | _]; [contradiction |].
  rewrite !land_FF, !Z.shiftr_div_pow2 by lia.
  rewrite !Z.mod_mod by lia. reflexivity.
Qed.

Lemma addNote_ok fuel trk t duration :
  (8 ≤ fuel)%nat → 0 ≤ t < 2 ^ 56 → 0 ≤ duration < 2 ^ 56 →
  addNote fuel (Builder trk t) duration =
  Ret (Builder (trk ++ vlq t ++ [0x90; 76; 100] ++ vlq duration ++ [0x80; 76; 0x00]) t).
Proof.
  intros Hfuel Ht Hd. unfold addNote. simpl track. simpl time.
  rewrite !writeVarLength_vlq by assumption. unfold bind.
  rewrite <- !app_assoc. reflexivity.
Qed.

(** The symbol loop followed by the end of track. *)
Lemma symbolLoop_events fuel morse : ∀ trk t,
  (8 ≤ fuel)%nat → 0 ≤ t < 2 ^ 56 →
  (let! st := symbolLoop fuel morse (Builder trk t) in
   let! delta := writeVarLength fuel (time st) in
   Ret ((track st ++ delta) ++ [0xFF; 0x2F; 0x00]))
  = Ret (trk ++ rune_events t morse).
Proof.
  induction morse as [| r morse IH]; intros trk t Hfuel Ht.
  - simpl. rewrite writeVarLength_vlq by assumption. simpl.
    rewrite <- app_assoc. reflexivity.
  - assert (Hc : ∀ c, List.In c [48; 144; 192; 336] → 0 ≤ c < 2 ^ 56).
    { intros c Hin. simpl in Hin.
      repeat (destruct Hin as [<- | Hin]; [split; [lia | reflexivity] |]).
      contradiction. }
    simpl symbolLoop. simpl rune_events. unfold onSymbol.
    destruct (r =? rune_of "."); [| destruct (r =? rune_of "-");
      [| destruct (r =? rune_of " "); [| destruct (r =? rune_of "/")]]].
    + change dot with 48. rewrite addNote_ok by (auto; apply Hc; simpl; auto).
      simpl bind at 2. simpl bind at 2. cbv beta. simpl track.
      rewrite IH by (auto; apply Hc; simpl; auto).
      unfold note_event. rewrite <- !app_assoc. reflexivity.
    + change dot with 48. change dash with 144.
      rewrite addNote_ok by (auto; apply Hc; simpl; auto).
      simpl bind at 2. simpl bind at 2. cbv beta. simpl track.
      rewrite IH by (auto; apply Hc; simpl; auto).
      unfold note_event. rewrite <- !app_assoc. reflexivity.
    + change (4 * dot) with 192. simpl bind at 2. cbv beta. simpl track.
      apply IH; auto. apply Hc; simpl; auto.
    + change pause with 336. simpl bind at 2. cbv beta. simpl track.
      apply IH; auto. apply Hc; simpl; auto.
    + simpl bind at 2. cbv beta. destruct (Builder trk t) eqn:E.
      injection E as -> ->. apply IH; auto.
Qed.

(** The track buffer is the tempo event followed by the events of the
    string. *)
Lemma buildTrack_events fuel morse bpm :
  (8 ≤ fuel)%nat → bpm ≠ 0 →
  ∃ tempo, setTempo bpm = Ret tempo ∧ length tempo = 7%nat ∧
           buildTrack fuel morse bpm = Ret (tempo ++ rune_events 0 morse).
Proof.
  intros Hfuel Hbpm. eexists. split; [apply setTempo_ok, Hbpm |].
  split; [reflexivity |].
  unfold buildTrack. rewrite setTempo_ok by assumption.
  unfold bind at 1.
  apply symbolLoop_events; [assumption | split; [lia | reflexivity]].
Qed.

Lemma rune_events_symbols ms : ∀ t,
  rune_events t (symbol_rune <$> ms) = events t ms.
Proof.
  induction ms as [| [] ms IH]; intros t; simpl; rewrite ?IH; reflexivity.
Qed.

(** *** Chunk assembly *)

Lemma PutUint32_length v : length (PutUint32 v) = 4%nat.
Proof. reflexivity. Qed.

Lemma PutUint32_bytes v : Forall is_byte (PutUint32 v).
Proof.
  unfold PutUint32, to_byte, is_byte.
  repeat constructor; apply Z.mod_pos_bound; lia.
Qed.

Lemma be_val_PutUint32 v : 0 ≤ v < 2 ^ 32 → be_val (PutUint32 v) = v.
Proof.
  intros Hv. unfold PutUint32, to_byte, be_val. simpl.
  rewrite !Z.shiftr_div_pow2 by lia.
  change (2 ^ 24) with 16777216. change (2 ^ 16) with 65536.
  change (2 ^ 8) with 256. change (2 ^ 32) with 4294967296 in Hv.
  Z.div_mod_to_equations. lia.
Qed.

Lemma be_val_low24 q :
  be_val [q / 65536 mod 256; q / 256 mod 256; q mod 256] = q mod 2 ^ 24.
Proof.
  unfold be_val. simpl. change (2 ^ 24) with 16777216.
  Z.div_mod_to_equations. lia.
Qed.

Lemma midiData_ok fuel morse bpm trk :
  buildTrack fuel morse bpm = Ret trk →
  midiData fuel morse bpm =
  Ret (header ++ trackHeader
       ++ PutUint32 (to_uint32 (Z.of_nat (length trk))) ++ trk).
Proof.
  intros Hb. unfold midiData. rewrite Hb. unfold bind.
  rewrite <- !app_assoc. reflexivity.
Qed.

Lemma header_bytes :
  header = [77; 84; 104; 100; 0; 0; 0; 6; 0; 0; 0; 1; 0; 96] ∧
  trackHeader = [77; 84; 114; 107].
Proof. split; reflexivity. Qed.

(** *** A string of dots *)

Lemma dots_events_length n : ∀ t,
  t = 0 ∨ t = 48 →
  length (rune_events t (repeat (rune_of ".") n)) = (8 * n + 4)%nat.
Proof.
  induction n as [| n IH]; intros t Ht.
  - destruct Ht as [-> | ->]; reflexivity.
  - change (repeat (rune_of ".") (S n))
      with (rune_of "." :: repeat (rune_of ".") n).
    change (rune_events t (rune_of "." :: repeat (rune_of ".") n))
      with (note_event t 48 ++ rune_events 48 (repeat (rune_of ".") n)).
    rewrite length_app, IH by (right; reflexivity).
    destruct Ht as [-> | ->]; change (length (note_event _ 48)) with 8%nat; lia.
Qed.

Lemma many_dots_track fuel :
  (8 ≤ fuel)%nat →
  ∃ trk, buildTrack fuel many_dots 120 = Ret trk ∧
         Z.of_nat (length trk) = 2 ^ 32 + 11.
Proof.
  intros Hfuel.
  destruct (buildTrack_events fuel many_dots 120 Hfuel) as (tempo & _ & Hlen & Hb);
    [discriminate |].
  eexists. split; [exact Hb |].
  rewrite length_app, Hlen. unfold many_dots.
  rewrite dots_events_length by (left; reflexivity).
  rewrite !Nat2Z.inj_add, Nat2Z.inj_mul, Z2Nat.id by (apply Z.pow_nonneg; lia).
  reflexivity.
Qed.

End Track.

(** C3: for every string of Morse symbols and every BPM of at least 1, the
    track buffer is the tempo event (7 bytes) followed by what the state
    machine of the specification emits from a pending delta-time of 0: a dot
    gives VLQ(pending), [0x90 76 100], VLQ(48), [0x80 76 0] and leaves 48
    pending; a dash gives the same with duration 144 and leaves 48 pending;
    a space emits nothing and leaves 192 pending; ['/'] emits nothing and
    leaves 336 pending; at the end VLQ(pending) and [0xFF 0x2F 0x00]. *)
Theorem C3_track_state_machine (fuel : nat) (ms : list symbol) (bpm : Z) :
  (8 ≤ fuel)%nat → 1 ≤ bpm →
  dot = 48 ∧ dash = 144 ∧ 4 * dot = 192 ∧ pause = 336 ∧
  ∃ tempo, setTempo bpm = Ret tempo ∧ length tempo = 7%nat ∧
           buildTrack fuel (symbol_rune <$> ms) bpm = Ret (tempo ++ events 0 ms).
Proof.
  intros Hfuel Hbpm. do 4 (split; [reflexivity |]).
  destruct (buildTrack_events fuel (symbol_rune <$> ms) bpm Hfuel)
    as (tempo & Ht & Hlen & Hb); [lia |].
  exists tempo. rewrite <- rune_events_symbols. auto.
Qed.

Lemma C3_track_state_machine_witness :
  (8 ≤ 8)%nat ∧ 1 ≤ 120 ∧
  dot = 48 ∧ dash = 144 ∧ 4 * dot = 192 ∧ pause = 336 ∧
  ∃ tempo, setTempo 120 = Ret tempo ∧ length tempo = 7%nat ∧
           buildTrack 8 (symbol_rune <$> [Dot; Gap; Dash; Sep; Dot]) 120
           = Ret (tempo ++ events 0 [Dot; Gap; Dash; Sep; Dot]).
Proof.
  split; [lia |]. split; [lia |].
  apply (C3_track_state_machine 8 [Dot; Gap; Dash; Sep; Dot] 120); lia.
Defined.

(** C4, as the specification states it, fails at BPM 1: the three payload
    bytes are [0x93 0x87 0x00], which is 9668352 and not 60000000. *)
Lemma C4_tempo_counterexample :
  ∃ rest, buildTrack 8 [] 1 = Ret ([0x00; 0xFF; 0x51; 0x03; 0x93; 0x87; 0x00] ++ rest) ∧
          be_val [0x93; 0x87; 0x00] = 9668352 ∧
          be_val [0x93; 0x87; 0x00] ≠ 60000000 ÷ 1.
Proof. eexists. split; [reflexivity |]. split; [reflexivity | discriminate]. Qed.

(** C4 (amended): for every BPM of at least 1 the track buffer begins with
    delta-time 0 and the tempo event [0xFF 0x51 0x03] followed by three bytes
    holding, big-endian, the low 24 bits of [60000000 / BPM] (division
    truncating toward zero), and everything after it is the note events and
    the end of track; the three bytes hold the quotient itself for every BPM
    of at least 4; BPM 120 gives [0x07 0xA1 0x20], BPM 60 gives
    [0x0F 0x42 0x40]. *)
Theorem C4_tempo_event (fuel : nat) (morse : list rune) (bpm : Z) :
  (8 ≤ fuel)%nat → 1 ≤ bpm →
  ∃ b1 b2 b3,
    buildTrack fuel morse bpm
    = Ret ([0x00; 0xFF; 0x51; 0x03; b1; b2; b3] ++ rune_events 0 morse) ∧
    Forall is_byte [b1; b2; b3] ∧
    be_val [b1; b2; b3] = (60000000 ÷ bpm) mod 2 ^ 24 ∧
    (4 ≤ bpm → be_val [b1; b2; b3] = 60000000 ÷ bpm) ∧
    (bpm = 120 → [b1; b2; b3] = [0x07; 0xA1; 0x20]) ∧
    (bpm = 60 → [b1; b2; b3] = [0x0F; 0x42; 0x40]).
Proof.
  intros Hfuel Hbpm.
  destruct (buildTrack_events fuel morse bpm Hfuel) as (tempo & Ht & _ & Hb);
    [lia |].
  rewrite setTempo_ok in Ht by lia. injection Ht as <-.
  eexists _, _, _. split; [exact Hb |].
  assert (Hq : 0 ≤ 60000000 ÷ bpm ≤ 60000000).
  { rewrite Z.quot_div_nonneg by lia.
    split; [apply Z.div_pos; lia |].
    apply Z.div_le_upper_bound; nia. }
  assert (Hval : be_val [(60000000 ÷ bpm) / 65536 mod 256;
                         (60000000 ÷ bpm) / 256 mod 256;
                         (60000000 ÷ bpm) mod 256]
                 = (60000000 ÷ bpm) mod 2 ^ 24).
  { apply be_val_low24. }
  split; [| split; [exact Hval | split; [| split]]].
  - unfold is_byte. repeat constructor; apply Z.mod_pos_bound; lia.
  - intros H4. rewrite Hval. apply Z.mod_small.
    split; [lia |]. rewrite Z.quot_div_nonneg by lia.
    apply Z.div_lt_upper_bound; [lia |]. change (2 ^ 24) with 16777216. lia.
  - intros ->. reflexivity.
  - intros ->. reflexivity.
Qed.

Lemma C4_tempo_event_witness :
  (8 ≤ 8)%nat ∧ 1 ≤ 120 ∧
  ∃ b1 b2 b3,
    buildTrack 8 (runes "-.") 120
    = Ret ([0x00; 0xFF; 0x51; 0x03; b1; b2; b3] ++ rune_events 0 (runes "-.")) ∧
    Forall is_byte [b1; b2; b3] ∧
    be_val [b1; b2; b3] = (60000000 ÷ 120) mod 2 ^ 24 ∧
    (4 ≤ 120 → be_val [b1; b2; b3] = 60000000 ÷ 120) ∧
    (120 = 120 → [b1; b2; b3] = [0x07; 0xA1; 0x20]) ∧
    (120 = 60 → [b1; b2; b3] = [0x0F; 0x42; 0x40]).
Proof.
  split; [lia |]. split; [lia |].
  apply (C4_tempo_event 8 (runes "-.") 120); lia.
Defined.

(** C5, as the specification states it, fails on a track buffer of
    [2 ^ 32] bytes or more: for [2 ^ 29] dots the buffer has [2 ^ 32 + 11]
    bytes and the length field holds 11. *)
Lemma C5_length_field_counterexample :
  ∃ trk lenfield,
    buildTrack 8 many_dots 120 = Ret trk ∧
    midiData 8 many_dots 120 = Ret (header ++ trackHeader ++ lenfield ++ trk) ∧
    Z.of_nat (length trk) = 2 ^ 32 + 11 ∧
    be_val lenfield = 11 ∧
    be_val lenfield ≠ Z.of_nat (length trk).
Proof.
  destruct (many_dots_track 8) as (trk & Hb & Hlen); [lia |].
  exists trk, (PutUint32 (to_uint32 (Z.of_nat (length trk)))).
  split; [exact Hb |]. split; [apply midiData_ok, Hb |].
  split; [exact Hlen |]. rewrite Hlen.
  split; [reflexivity | discriminate].
Qed.

(** C5 (amended): for every string and every BPM of at least 1, the file is
    the 14-byte header chunk ([MThd], length 6, format 0, one track, 96 ticks
    per beat, so byte 13 is 96) followed by [MTrk], a 4-byte big-endian
    length field and the track buffer; the length field holds the byte length
    of the track buffer modulo [2 ^ 32], hence the exact length of every
    track buffer shorter than [2 ^ 32] bytes. *)
Theorem C5_file_layout (fuel : nat) (morse : list rune) (bpm : Z) :
  (8 ≤ fuel)%nat → 1 ≤ bpm →
  ∃ trk lenfield data,
    buildTrack fuel morse bpm = Ret trk ∧
    midiData fuel morse bpm = Ret data ∧
    data = [77; 84; 104; 100; 0; 0; 0; 6; 0; 0; 0; 1; 0; 96]
           ++ [77; 84; 114; 107] ++ lenfield ++ trk ∧
    data !! 13%nat = Some 96 ∧
    length lenfield = 4%nat ∧ Forall is_byte lenfield ∧
    be_val lenfield = Z.of_nat (length trk) mod 2 ^ 32 ∧
    (Z.of_nat (length trk) < 2 ^ 32 → be_val lenfield = Z.of_nat (length trk)).
Proof.
  intros Hfuel Hbpm.
  destruct (buildTrack_events fuel morse bpm Hfuel) as (tempo & _ & _ & Hb);
    [lia |].
  eexists _, (PutUint32 (to_uint32 (Z.of_nat (length _)))), _.
  split; [exact Hb |]. split; [apply midiData_ok, Hb |].
  split; [reflexivity |]. split; [reflexivity |].
  split; [apply PutUint32_length |]. split; [apply PutUint32_bytes |].
  assert (Hval : be_val (PutUint32 (to_uint32 (Z.of_nat (length (tempo ++ rune_events 0 morse)))))
                 = Z.of_nat (length (tempo ++ rune_events 0 morse)) mod 2 ^ 32).
  { apply be_val_PutUint32. apply Z.mod_pos_bound. lia. }
  split; [exact Hval |].
  intros Hlt. rewrite Hval. apply Z.mod_small. lia.
Qed.

Lemma C5_file_layout_witness :
  (8 ≤ 8)%nat ∧ 1 ≤ 120 ∧
  ∃ trk lenfield data,
    buildTrack 8 (runes "... --- ...") 120 = Ret trk ∧
    midiData 8 (runes "... --- ...") 120 = Ret data ∧
    data = [77; 84; 104; 100; 0; 0; 0; 6; 0; 0; 0; 1; 0; 96]
           ++ [77; 84; 114; 107] ++ lenfield ++ trk ∧
    data !! 13%nat = Some 96 ∧
    length lenfield = 4%nat ∧ Forall is_byte lenfield ∧
    be_val lenfield = Z.of_nat (length trk) mod 2 ^ 32 ∧
    (Z.of_nat (length trk) < 2 ^ 32 → be_val lenfield = Z.of_nat (length trk)).
Proof.
  split; [lia |]. split; [lia |].
  apply (C5_file_layout 8 (runes "... --- ...") 120); lia.
Defined.

(** ** The symbol mapper *)

Section MapperFacts.
Context (lowerTable : rune → rune).

Lemma foldl_addSymbol word : ∀ acc,
  foldl addSymbol acc word = acc ++ letter_codes word.
Proof.
  induction word as [| c word IH]; intros acc; simpl.
  - rewrite app_nil_r. reflexivity.
  - rewrite IH. unfold addSymbol.
    destruct (morseCode !! c); [rewrite <- app_assoc |]; reflexivity.
Qed.

Lemma foldl_addWord words : ∀ acc,
  foldl (addWord lowerTable) acc words = acc ++ (word_spec lowerTable <$> words).
Proof.
  induction words as [| w words IH]; intros acc; simpl.
  - rewrite app_nil_r. reflexivity.
  - rewrite IH. unfold addWord. rewrite foldl_addSymbol, <- app_assoc.
    reflexivity.
Qed.

(** The two loops of [textToMorse] compute the mapping of the
    specification. *)
Lemma textToMorse_spec text : textToMorse lowerTable text = morse_spec lowerTable text.
Proof. unfold textToMorse, morse_spec. rewrite foldl_addWord. reflexivity. Qed.

(** *** The output alphabet *)

Lemma morseCode_codes r code :
  morseCode !! r = Some code → Forall dot_or_dash code.
Proof.
  with_strategy transparent [morseCode] unfold morseCode.
  intros H. apply elem_of_list_to_map_2 in H.
  repeat (apply elem_of_cons in H as [H | H];
          [injection H as -> ->;
           repeat (apply Forall_cons_2; [(left; reflexivity) || (right; reflexivity) |]);
           apply Forall_nil_2 |]).
  apply elem_of_nil in H; contradiction.
Qed.

Lemma Join_Forall (P : rune → Prop) elems sep :
  Forall (Forall P) elems → Forall P sep → Forall P (Join elems sep).
Proof.
  intros Helems Hsep. induction Helems as [| e rest He Hrest IH]; [constructor |].
  simpl. destruct rest; [assumption |].
  apply Forall_app. split; [assumption |]. apply Forall_app. split; assumption.
Qed.

Lemma letter_codes_Forall word : Forall (Forall dot_or_dash) (letter_codes word).
Proof.
  unfold letter_codes. induction word as [| c word IH]; simpl; [constructor |].
  destruct (morseCode !! c) eqn:E; simpl; [| assumption].
  constructor; [eapply morseCode_codes, E | assumption].
Qed.

Lemma textToMorse_alphabet text : Forall morse_alphabet (textToMorse lowerTable text).
Proof.
  rewrite textToMorse_spec. unfold morse_spec.
  apply Join_Forall.
  - apply Forall_fmap, Forall_forall. intros w _. simpl. unfold word_spec.
    apply Join_Forall.
    + eapply Forall_impl; [apply letter_codes_Forall |].
      intros code Hcode. eapply Forall_impl; [exact Hcode |].
      unfold dot_or_dash, morse_alphabet. intros r [-> | ->]; auto.
    + apply Forall_singleton. unfold morse_alphabet. auto.
  - apply Forall_singleton. unfold morse_alphabet. auto.
Qed.

(** *** Case *)

Lemma textToMorse_case x y :
  ToLower lowerTable x = ToLower lowerTable y →
  textToMorse lowerTable x = textToMorse lowerTable y.
Proof. intros H. unfold textToMorse. rewrite H. reflexivity. Qed.

Ltac case_leb :=
  repeat match goal with
         | |- context [?a <=? ?b] => destruct (Z.leb_spec a b); cbn [andb]
         end.

Lemma ToLower_ascii_upper r :
  unicode_ToLower lowerTable (ascii_upper r) = unicode_ToLower lowerTable r.
Proof.
  unfold ascii_upper.
  change (rune_of "a") with 97. change (rune_of "z") with 122.
  case_leb; [| reflexivity | reflexivity].
  unfold unicode_ToLower.
  change (rune_of "A") with 65. change (rune_of "Z") with 90.
  change (rune_of "a") with 97.
  case_leb; lia.
Qed.

Lemma ToLower_ascii_lower r :
  unicode_ToLower lowerTable (ascii_lower r) = unicode_ToLower lowerTable r.
Proof.
  unfold ascii_lower.
  change (rune_of "A") with 65. change (rune_of "Z") with 90.
  case_leb; [| reflexivity | reflexivity].
  unfold unicode_ToLower.
  change (rune_of "A") with 65. change (rune_of "Z") with 90.
  change (rune_of "a") with 97.
  case_leb; lia.
Qed.

Lemma textToMorse_upper_lower x :
  textToMorse lowerTable (ascii_upper <$> x) = textToMorse lowerTable (ascii_lower <$> x).
Proof.
  apply textToMorse_case. unfold ToLower. rewrite <- !list_fmap_compose.
  apply list_fmap_ext. intros _ r _. simpl.
  rewrite ToLower_ascii_upper, ToLower_ascii_lower. reflexivity.
Qed.

(** *** Unrecognized characters *)

Lemma Split_nonempty s : Split s ≠ [].
Proof.
  destruct s as [| r s]; simpl; [discriminate |].
  destruct (r =? rune_of " "); [discriminate |].
  destruct (Split s); discriminate.
Qed.

Lemma Split_cons r s :
  Split (r :: s) =
  if r =? rune_of " " then [] :: Split s
  else match Split s with
       | w :: ws => (r :: w) :: ws
       | [] => [[r]]
       end.
Proof. reflexivity. Qed.

Lemma letter_codes_cons c word :
  letter_codes (c :: word) =
  match morseCode !! c with
  | Some code => code :: letter_codes word
  | None => letter_codes word
  end.
Proof. reflexivity. Qed.

(** A character that is neither the space nor, in lower case, a key of the
    table leaves no trace in the codes of the words. *)
Lemma codes_drop pre c post :
  c ≠ rune_of " " → morseCode !! unicode_ToLower lowerTable c = None →
  (λ w, letter_codes (ToLower lowerTable w)) <$> Split (pre ++ c :: post)
  = (λ w, letter_codes (ToLower lowerTable w)) <$> Split (pre ++ post).
Proof.
  intros Hc Hnone. induction pre as [| r pre IH].
  - rewrite !app_nil_l, Split_cons.
    destruct (Z.eqb_spec c (rune_of " ")) as [? | _]; [contradiction |].
    pose proof (Split_nonempty post) as Hne.
    destruct (Split post) as [| w ws]; [contradiction |].
    rewrite !fmap_cons. f_equal.
    unfold ToLower. rewrite fmap_cons, letter_codes_cons, Hnone. reflexivity.
  - rewrite <- !app_comm_cons, !Split_cons.
    destruct (r =? rune_of " "); [rewrite !fmap_cons, IH; reflexivity |].
    pose proof (Split_nonempty (pre ++ c :: post)) as Hne1.
    pose proof (Split_nonempty (pre ++ post)) as Hne2.
    destruct (Split (pre ++ c :: post)) as [| w1 ws1]; [contradiction |].
    destruct (Split (pre ++ post)) as [| w2 ws2]; [contradiction |].
    rewrite !fmap_cons in IH |- *. injection IH as Hw Hws.
    rewrite Hws. f_equal.
    unfold ToLower in Hw |- *. rewrite !fmap_cons, !letter_codes_cons, Hw.
    reflexivity.
Qed.

Lemma ToLower_app a b :
  ToLower lowerTable (a ++ b) = ToLower lowerTable a ++ ToLower lowerTable b.
Proof. apply fmap_app. Qed.

Lemma ToLower_cons r s :
  ToLower lowerTable (r :: s) = unicode_ToLower lowerTable r :: ToLower lowerTable s.
Proof. reflexivity. Qed.

Lemma textToMorse_drop pre c post :
  unicode_ToLower lowerTable c ≠ rune_of " " →
  morseCode !! unicode_ToLower lowerTable (unicode_ToLower lowerTable c) = None →
  textToMorse lowerTable (pre ++ c :: post) = textToMorse lowerTable (pre ++ post).
Proof.
  intros Hc Hnone. rewrite !textToMorse_spec. unfold morse_spec.
  rewrite !ToLower_app, ToLower_cons.
  change (word_spec lowerTable)
    with ((λ codes, Join codes (runes " ")) ∘ (λ w, letter_codes (ToLower lowerTable w))).
  rewrite !list_fmap_compose.
  rewrite codes_drop by assumption. reflexivity.
Qed.

(** Only the lower-case ASCII letters are keys of the table. *)
Lemma morseCode_domain c : ¬ (97 ≤ c ≤ 122) → morseCode !! c = None.
Proof.
  intros Hc. with_strategy transparent [morseCode] unfold morseCode.
  apply not_elem_of_list_to_map_1. cbn [fmap list_fmap fst].
  rewrite !elem_of_cons, elem_of_nil.
  change (rune_of "a") with 97. change (rune_of "b") with 98.
  change (rune_of "c") with 99. change (rune_of "d") with 100.
  change (rune_of "e") with 101. change (rune_of "f") with 102.
  change (rune_of "g") with 103. change (rune_of "h") with 104.
  change (rune_of "i") with 105. change (rune_of "j") with 106.
  change (rune_of "k") with 107. change (rune_of "l") with 108.
  change (rune_of "m") with 109. change (rune_of "n") with 110.
  change (rune_of "o") with 111. change (rune_of "p") with 112.
  change (rune_of "q") with 113. change (rune_of "r") with 114.
  change (rune_of "s") with 115. change (rune_of "t") with 116.
  change (rune_of "u") with 117. change (rune_of "v") with 118.
  change (rune_of "w") with 119. change (rune_of "x") with 120.
  change (rune_of "y") with 121. change (rune_of "z") with 122.
  lia.
Qed.

(** An ASCII character that is no letter is its own lower case and no key
    of the table. *)
Lemma ascii_unrecognized c :
  c ≤ 127 → ¬ (65 ≤ c ≤ 90) → ¬ (97 ≤ c ≤ 122) →
  unicode_ToLower lowerTable c = c ∧ morseCode !! c = None.
Proof.
  intros Hascii Hupper Hlower. split; [| apply morseCode_domain, Hlower].
  unfold unicode_ToLower.
  change (rune_of "A") with 65. change (rune_of "Z") with 90.
  case_leb; lia.
Qed.

Lemma textToMorse_drop_ascii pre c post :
  c ≤ 127 → ¬ (65 ≤ c ≤ 90) → ¬ (97 ≤ c ≤ 122) → c ≠ rune_of " " →
  textToMorse lowerTable (pre ++ c :: post) = textToMorse lowerTable (pre ++ post).
Proof.
  intros Hascii Hupper Hlower Hsp.
  destruct (ascii_unrecognized c Hascii Hupper Hlower) as [Hl Hn].
  apply textToMorse_drop; rewrite ?Hl; assumption.
Qed.

(** *** The mapper on its own output *)

Lemma alphabet_unrecognized r :
  morse_alphabet r → unicode_ToLower lowerTable r = r ∧ morseCode !! r = None.
Proof.
  intros Hr. apply ascii_unrecognized;
    destruct Hr as [-> | [-> | [-> | ->]]]; cbv; intuition congruence.
Qed.

Lemma ToLower_alphabet s :
  Forall morse_alphabet s → ToLower lowerTable s = s.
Proof.
  induction 1 as [| r s Hr Hs IH]; [reflexivity |].
  rewrite ToLower_cons, IH. f_equal. apply alphabet_unrecognized, Hr.
Qed.

Lemma letter_codes_alphabet w : Forall morse_alphabet w → letter_codes w = [].
Proof.
  induction 1 as [| r w Hr Hw IH]; [reflexivity |].
  rewrite letter_codes_cons, IH.
  destruct (alphabet_unrecognized r Hr) as [_ ->]. reflexivity.
Qed.

Lemma word_spec_alphabet w : Forall morse_alphabet w → word_spec lowerTable w = [].
Proof.
  intros Hw. unfold word_spec.
  rewrite ToLower_alphabet, letter_codes_alphabet by assumption. reflexivity.
Qed.

Lemma Split_Forall (P : rune → Prop) s : Forall P s → Forall (Forall P) (Split s).
Proof.
  induction 1 as [| r s Hr Hs IH]; [repeat constructor |].
  rewrite Split_cons. destruct (r =? rune_of " ").
  - constructor; [constructor | assumption].
  - destruct (Split s) as [| w ws]; [repeat constructor; assumption |].
    inversion IH; subst. constructor; [constructor |]; assumption.
Qed.

Lemma Split_length s : length (Split s) = S (spaces s).
Proof.
  unfold spaces. induction s as [| r s IH]; [reflexivity |].
  rewrite Split_cons, filter_cons.
  destruct (Z.eqb_spec r (rune_of " ")) as [-> | Hne].
  - rewrite decide_True by reflexivity. simpl. rewrite IH. reflexivity.
  - rewrite decide_False by assumption.
    destruct (Split s); [discriminate | exact IH].
Qed.

Lemma Join_nils (x : rune) k : Join (repeat [] (S k)) [x] = repeat x k.
Proof.
  induction k as [| k IH]; [reflexivity |].
  change (Join (repeat [] (S (S k))) [x]) with (x :: Join (repeat [] (S k)) [x]).
  rewrite IH. reflexivity.
Qed.

Lemma fmap_all_nil (f : list rune → list rune) l :
  Forall (λ w, f w = []) l → f <$> l = repeat [] (length l).
Proof.
  induction 1 as [| w l Hw Hl IH]; [reflexivity |].
  rewrite fmap_cons, Hw, IH. reflexivity.
Qed.

(** On a string of Morse symbols the mapper finds no letter: what is left
    is one ['/'] per space. *)
Lemma textToMorse_on_alphabet y :
  Forall morse_alphabet y →
  textToMorse lowerTable y = repeat (rune_of "/") (spaces y).
Proof.
  intros Hy. rewrite textToMorse_spec. unfold morse_spec.
  rewrite ToLower_alphabet by assumption.
  rewrite (fmap_all_nil (word_spec lowerTable)).
  - rewrite Split_length. apply Join_nils.
  - eapply Forall_impl; [apply Split_Forall, Hy |].
    apply word_spec_alphabet.
Qed.

Lemma spaces_slashes k : spaces (repeat (rune_of "/") k) = 0%nat.
Proof.
  unfold spaces. induction k as [| k IH]; [reflexivity |].
  change (repeat (rune_of "/") (S k)) with (rune_of "/" :: repeat (rune_of "/") k).
  rewrite filter_cons, decide_False by discriminate. exact IH.
Qed.

Lemma textToMorse_fixed_point y :
  Forall morse_alphabet y → textToMorse lowerTable y = y ↔ y = [].
Proof.
  intros Hy. rewrite textToMorse_on_alphabet by assumption. split.
  - intros E. pose proof (f_equal spaces E) as Hs.
    rewrite spaces_slashes in Hs. rewrite <- Hs in E. symmetry. exact E.
  - intros ->. reflexivity.
Qed.

End MapperFacts.

(** C6, as the specification states it, fails: the codes of the letters of a
    word are joined by a space, so ["SOS"] gives ["... --- ..."]. *)
Lemma C6_sos_counterexample :
  textToMorse identity_table (runes "SOS") = runes "... --- ..." ∧
  textToMorse identity_table (runes "SOS") ≠ runes "...---..." ∧
  textToMorse identity_table (runes "sos sos") ≠ runes "...---.../...---...".
Proof. vm_compute. split; [reflexivity | split; discriminate]. Qed.

(** C6 (amended): on ["SOS"] the mapper produces exactly ["... --- ..."]
    (as on ["sos"]) and on ["sos sos"] exactly ["... --- .../... --- ..."]. *)
Theorem C6_sos_vectors (lowerTable : rune → rune) :
  textToMorse lowerTable (runes "SOS") = runes "... --- ..." ∧
  textToMorse lowerTable (runes "sos") = runes "... --- ..." ∧
  textToMorse lowerTable (runes "sos sos") = runes "... --- .../... --- ...".
Proof. vm_compute. repeat split; reflexivity. Qed.

(** C7: for every text, [textToMorse] returns the string of the contract
    (the text is split at the spaces, each word becomes the codes of its
    recognized letters joined by a single space, the words are joined by
    ['/']); every character of the result is ['.'], ['-'], [' '] or ['/'];
    a character that is not recognized (in particular an ASCII character
    that is neither a letter nor the space) leaves no trace, no placeholder;
    and texts that differ only in case, such as the upper-case and the
    lower-case form of a text, give the same result. *)
Theorem C7_mapper_contract (lowerTable : rune → rune) (text : list rune) :
  textToMorse lowerTable text = morse_spec lowerTable text ∧
  Forall morse_alphabet (textToMorse lowerTable text) ∧
  (∀ pre c post,
     text = pre ++ c :: post →
     unicode_ToLower lowerTable c ≠ rune_of " " →
     morseCode !! unicode_ToLower lowerTable (unicode_ToLower lowerTable c) = None →
     textToMorse lowerTable text = textToMorse lowerTable (pre ++ post)) ∧
  (∀ pre c post,
     text = pre ++ c :: post →
     c ≤ 127 → ¬ (65 ≤ c ≤ 90) → ¬ (97 ≤ c ≤ 122) → c ≠ rune_of " " →
     textToMorse lowerTable text = textToMorse lowerTable (pre ++ post)) ∧
  (∀ text', ToLower lowerTable text' = ToLower lowerTable text →
            textToMorse lowerTable text' = textToMorse lowerTable text) ∧
  textToMorse lowerTable (ascii_upper <$> text) = textToMorse lowerTable text ∧
  textToMorse lowerTable (ascii_lower <$> text) = textToMorse lowerTable text.
Proof.
  split; [apply textToMorse_spec |].
  split; [apply textToMorse_alphabet |].
  split; [intros pre c post ->; apply textToMorse_drop |].
  split; [intros pre c post ->; apply textToMorse_drop_ascii |].
  split; [intros text'; apply textToMorse_case |].
  split; apply textToMorse_case; unfold ToLower; rewrite <- list_fmap_compose;
    apply list_fmap_ext; intros _ r _; simpl.
  - apply ToLower_ascii_upper.
  - apply ToLower_ascii_lower.
Qed.

Lemma C7_mapper_contract_witness :
  textToMorse identity_table (runes "So, 3 s") = runes "... ---//..." ∧
  textToMorse identity_table (runes "So 3 s") = runes "... ---//...".
Proof.
  pose proof (C7_mapper_contract identity_table (runes "So, 3 s"))
    as (_ & _ & _ & Hdrop & _).
  rewrite (Hdrop (runes "So") 44 (runes " 3 s")); try lia; try reflexivity.
  - split; vm_compute; reflexivity.
  - discriminate.
Defined.

(** C8, as the specification states it, fails: the mapping of ["s"] is
    ["..."], and the mapping of ["..."] is the empty string. *)
Lemma C8_idempotence_counterexample :
  textToMorse identity_table (ToLower identity_table (runes "s")) = runes "..." ∧
  textToMorse identity_table
    (textToMorse identity_table (ToLower identity_table (runes "s"))) = [] ∧
  textToMorse identity_table
    (textToMorse identity_table (ToLower identity_table (runes "s")))
  ≠ textToMorse identity_table (ToLower identity_table (runes "s")).
Proof. vm_compute. split; [reflexivity | split; [reflexivity | discriminate]]. Qed.

(** C8 (amended): for every input [x], applying the mapper to its own output
    on [lower(x)] leaves one ['/'] per space of that output and nothing else
    (dots, dashes and ['/'] are no letters); the second application returns
    the same string as the first exactly when that string is empty. *)
Theorem C8_mapping_twice (lowerTable : rune → rune) (x : list rune) :
  textToMorse lowerTable (textToMorse lowerTable (ToLower lowerTable x))
  = repeat (rune_of "/") (spaces (textToMorse lowerTable (ToLower lowerTable x))) ∧
  (textToMorse lowerTable (textToMorse lowerTable (ToLower lowerTable x))
   = textToMorse lowerTable (ToLower lowerTable x)
   ↔ textToMorse lowerTable (ToLower lowerTable x) = []).
Proof.
  split.
  - apply textToMorse_on_alphabet, textToMorse_alphabet.
  - apply textToMorse_fixed_point, textToMorse_alphabet.
Qed.

Lemma C8_mapping_twice_witness :
  textToMorse identity_table (textToMorse identity_table (ToLower identity_table (runes "so")))
  = repeat (rune_of "/")
      (spaces (textToMorse identity_table (ToLower identity_table (runes "so")))).
Proof. exact (proj1 (C8_mapping_twice identity_table (runes "so"))). Defined.

(** ** The command *)

Section ProgramFacts.
Context (lowerTable : rune → rune) (spaceTable : rune → bool).
Context (FS : Type) (os_WriteFile : FS → list rune → list byte → Z → FS * option error).

Lemma TrimLeft_blank isSpace s :
  Forall (λ r, isSpace r = true) s → TrimLeft isSpace s = [].
Proof.
  induction 1 as [| r s Hr Hs IH]; [reflexivity |]. simpl. rewrite Hr. exact IH.
Qed.

Lemma TrimLeft_nil isSpace s :
  TrimLeft isSpace s = [] → Forall (λ r, isSpace r = true) s.
Proof.
  induction s as [| r s IH]; [constructor |]. simpl.
  destruct (isSpace r) eqn:E; [| discriminate].
  intros H. constructor; auto.
Qed.

Lemma TrimLeft_head isSpace s r t :
  TrimLeft isSpace s = r :: t → isSpace r = false.
Proof.
  induction s as [| r' s IH]; [discriminate |]. simpl.
  destruct (isSpace r') eqn:E; [exact IH |].
  intros [= -> _]. exact E.
Qed.

(** [TrimSpace] leaves nothing exactly of the strings that are empty or all
    white space. *)
Lemma TrimSpace_blank s :
  TrimSpace spaceTable s = [] ↔
  Forall (λ r, unicode_IsSpace spaceTable r = true) s.
Proof.
  unfold TrimSpace. split.
  - intros H. apply (f_equal reverse) in H.
    rewrite reverse_involutive, reverse_nil in H.
    apply TrimLeft_nil in H. rewrite Forall_reverse in H.
    destruct (TrimLeft (unicode_IsSpace spaceTable) s) as [| r t] eqn:E.
    + apply TrimLeft_nil, E.
    + apply TrimLeft_head in E. inversion H; subst. congruence.
  - intros H. rewrite (TrimLeft_blank _ s H). reflexivity.
Qed.

Lemma createMIDI_zero fuel morse filename fs :
  createMIDI FS os_WriteFile fuel morse filename 0 fs = Panic.
Proof. reflexivity. Qed.

Lemma midiData_total fuel morse bpm :
  (8 ≤ fuel)%nat → bpm ≠ 0 → ∃ data, midiData fuel morse bpm = Ret data.
Proof.
  intros Hfuel Hbpm.
  destruct (buildTrack_events fuel morse bpm Hfuel Hbpm) as (tempo & _ & _ & Hb).
  eexists. apply midiData_ok, Hb.
Qed.

End ProgramFacts.

(** C9: for every text that is empty or all white space, whatever the BPM
    and whatever [os.WriteFile] would do, the program prints the error,
    exits with code 1 and leaves the file system as it was: [createMIDI],
    the only step that writes a file, is not reached. *)
Theorem C9_blank_input_rejected
    (lowerTable : rune → rune) (spaceTable : rune → bool)
    (FS : Type) (os_WriteFile : FS → list rune → list byte → Z → FS * option error)
    (fuel : nat) (args : list (list rune)) (bpm : Z) (fs : FS) :
  Forall (λ r, unicode_IsSpace spaceTable r = true) (Join args (runes " ")) →
  Action lowerTable spaceTable FS os_WriteFile fuel args bpm fs
  = Ret ([runes "Input text: " ++ Join args (runes " ")], fs,
         Some (runes "no text provided, please provide text to convert to Morse code")) ∧
  main lowerTable spaceTable FS os_WriteFile fuel args bpm fs
  = Ret (Run [runes "Input text: " ++ Join args (runes " ");
              runes "Error: no text provided, please provide text to convert to Morse code";
              runes "Use --help for more information."]
             fs 1).
Proof.
  intros Hblank. apply TrimSpace_blank in Hblank.
  assert (HA : Action lowerTable spaceTable FS os_WriteFile fuel args bpm fs
               = Ret ([runes "Input text: " ++ Join args (runes " ")], fs,
                      Some (runes "no text provided, please provide text to convert to Morse code"))).
  { unfold Action. rewrite bool_decide_eq_true_2 by exact Hblank. reflexivity. }
  split; [exact HA |]. unfold main. rewrite HA. reflexivity.
Qed.

Lemma C9_blank_input_rejected_witness :
  Forall (λ r, unicode_IsSpace no_space_table r = true)
         (Join [runes " "; runes ""] (runes " ")) ∧
  main identity_table no_space_table mem_fs mem_WriteFile 0 [runes " "; runes ""] 0 []
  = Ret (Run [runes "Input text:   ";
              runes "Error: no text provided, please provide text to convert to Morse code";
              runes "Use --help for more information."]
             [] 1).
Proof.
  assert (H : Forall (λ r, unicode_IsSpace no_space_table r = true)
                     (Join [runes " "; runes ""] (runes " "))).
  { repeat (apply Forall_cons_2; [reflexivity |]). apply Forall_nil_2. }
  split; [exact H |].
  exact (proj2 (C9_blank_input_rejected identity_table no_space_table mem_fs
                  mem_WriteFile 0 [runes " "; runes ""] 0 [] H)).
Defined.

(** C10: nothing checks the BPM. [createMIDI] divides by it at once, so on
    BPM 0 it panics, and so does the whole command on any text that is not
    blank, the value of the flag reaching [createMIDI] as it is; on every
    BPM of at least 1 the construction of the file in memory returns a
    buffer, which is what [os.WriteFile] receives. *)
Theorem C10_bpm_unchecked
    (lowerTable : rune → rune) (spaceTable : rune → bool)
    (FS : Type) (os_WriteFile : FS → list rune → list byte → Z → FS * option error)
    (fs : FS) :
  (∀ fuel morse filename,
     createMIDI FS os_WriteFile fuel morse filename 0 fs = Panic) ∧
  (∀ fuel args,
     TrimSpace spaceTable (Join args (runes " ")) ≠ [] →
     main lowerTable spaceTable FS os_WriteFile fuel args 0 fs = Panic) ∧
  (∀ fuel morse filename bpm,
     (8 ≤ fuel)%nat → 1 ≤ bpm →
     ∃ data, midiData fuel morse bpm = Ret data ∧
             createMIDI FS os_WriteFile fuel morse filename bpm fs
             = Ret (os_WriteFile fs filename data 420)).
Proof.
  split; [intros; apply createMIDI_zero |]. split.
  - intros fuel args Htext. unfold main, Action.
    rewrite bool_decide_eq_false_2 by exact Htext.
    rewrite createMIDI_zero. reflexivity.
  - intros fuel morse filename bpm Hfuel Hbpm.
    destruct (midiData_total fuel morse bpm Hfuel) as [data Hdata]; [lia |].
    exists data. split; [exact Hdata |].
    unfold createMIDI. rewrite Hdata. reflexivity.
Qed.

Lemma C10_bpm_unchecked_witness :
  main identity_table no_space_table mem_fs mem_WriteFile 8 [runes "sos"] 0 [] = Panic ∧
  ∃ data, midiData 8 (runes "... --- ...") 1 = Ret data ∧
          createMIDI mem_fs mem_WriteFile 8 (runes "... --- ...") (runes "sos.mid") 1 []
          = Ret (mem_WriteFile [] (runes "sos.mid") data 420).
Proof.
  pose proof (C10_bpm_unchecked identity_table no_space_table mem_fs mem_WriteFile [])
    as (_ & Hmain & Htotal).
  split.
  - apply Hmain. vm_compute. discriminate.
  - apply Htotal; lia.
Defined.

(** * Further properties of the code *)

(** ** [writeVarLength] outside and inside its range *)

Section VLQMore.

Lemma pack_step fuel v cs t :
  0 < v → Forall is_cont cs → is_term t → (length cs ≤ 6)%nat →
  pack (S fuel) v (le_val (cs ++ [t]))
  = pack fuel (v / 128) (le_val ((v mod 128 + 128) :: cs ++ [t])).
Proof.
  intros Hv Hcs Ht Hlen. cbn [pack].
  destruct (Z.ltb_spec 0 v) as [_ | ?]; [| lia].
  pose proof (le_val_bound cs t Hcs Ht) as Hb.
  assert (Hpow : 2 ^ (8 * Z.of_nat (length cs) + 7) ≤ 2 ^ 55)
    by (apply Z.pow_le_mono_r; lia).
  rewrite Z.shiftl_mul_pow2, wrap_int_small by lia.
  pose proof (Z.mod_pos_bound v 128 ltac:(lia)) as Hm.
  rewrite land_7F, lor_flag by lia.
  change (2 ^ 8) with 256. rewrite push_byte by lia.
  rewrite Z.shiftr_div_pow2 by lia. reflexivity.
Qed.

(** As long as digits remain, each iteration pushes one continuation
    byte. *)
Lemma pack_steps k : ∀ fuel v cs t,
  128 ^ Z.of_nat k ≤ v → Forall is_cont cs → is_term t → (length cs + k ≤ 7)%nat →
  pack (k + fuel) v (le_val (cs ++ [t]))
  = pack fuel (v / 128 ^ Z.of_nat k) (le_val (fixed_cont k v ++ cs ++ [t])).
Proof.
  induction k as [| k IH]; intros fuel v cs t Hv Hcs Ht Hlen.
  - change (128 ^ Z.of_nat 0) with 1. rewrite Z.div_1_r. reflexivity.
  - rewrite Nat2Z.inj_succ, Z.pow_succ_r in Hv |- * by lia.
    pose proof (Z.pow_pos_nonneg 128 (Z.of_nat k) ltac:(lia) ltac:(lia)) as Hp.
    change (S k + fuel)%nat with (S (k + fuel)).
    rewrite pack_step by (assumption || lia).
    rewrite app_comm_cons, IH.
    + rewrite Z.div_div by lia. cbn [fixed_cont].
      rewrite <- app_assoc. reflexivity.
    + apply Z.div_le_lower_bound; lia.
    + pose proof (Z.mod_pos_bound v 128 ltac:(lia)).
      constructor; [unfold is_cont; lia | assumption].
    + assumption.
    + simpl. lia.
Qed.

Lemma fixed_cont_bytes k v : Forall is_cont (fixed_cont k v).
Proof.
  revert v. induction k as [| k IH]; intros v; cbn [fixed_cont]; [constructor |].
  apply Forall_app. split; [apply IH |].
  apply Forall_singleton. unfold is_cont.
  pose proof (Z.mod_pos_bound v 128). lia.
Qed.

Lemma fixed_cont_length k v : length (fixed_cont k v) = k.
Proof.
  revert v. induction k as [| k IH]; intros v; cbn [fixed_cont]; [reflexivity |].
  rewrite length_app, IH. simpl. lia.
Qed.

(** With a budget below the number of digits the first loop does not
    finish. *)
Lemma pack_starved fuel : ∀ v b,
  128 ^ Z.of_nat fuel ≤ 128 * v → pack fuel v b = OutOfFuel.
Proof.
  induction fuel as [| fuel IH]; intros v b Hv; [reflexivity |].
  rewrite Nat2Z.inj_succ, Z.pow_succ_r in Hv by lia.
  pose proof (Z.pow_pos_nonneg 128 (Z.of_nat fuel) ltac:(lia) ltac:(lia)) as Hp.
  cbn [pack]. destruct (Z.ltb_spec 0 v) as [_ | ?]; [| lia].
  destruct fuel as [| fuel]; [reflexivity |].
  apply IH. rewrite Z.shiftr_div_pow2 by lia. change (2 ^ 7) with 128.
  rewrite Nat2Z.inj_succ, Z.pow_succ_r in Hv |- * by lia.
  assert (128 ^ Z.of_nat fuel ≤ v / 128)
    by (apply Z.div_le_lower_bound; lia).
  lia.
Qed.

Lemma sval_cons b l : sval (b :: l) = b + 256 * sval l.
Proof. reflexivity. Qed.

Lemma le_val_sval cs t :
  le_val (cs ++ [t]) = sval cs + 256 ^ Z.of_nat (length cs) * (1 + t).
Proof.
  induction cs as [| c cs IH].
  - unfold le_val, sval. simpl. lia.
  - rewrite <- app_comm_cons, le_val_cons, sval_cons, IH. simpl length.
    rewrite Nat2Z.inj_succ, Z.pow_succ_r by lia. lia.
Qed.

Lemma sval_bound cs :
  Forall is_cont cs → cs ≠ [] →
  - 2 ^ (8 * Z.of_nat (length cs) - 1) ≤ sval cs < 0.
Proof.
  intros Hcs. induction Hcs as [| c cs Hc Hcs IH]; [congruence |].
  intros _. unfold is_cont in Hc. rewrite sval_cons. simpl length.
  destruct cs as [| c' cs'].
  - unfold sval. simpl. lia.
  - specialize (IH ltac:(discriminate)).
    replace (8 * Z.of_nat (S (length (c' :: cs'))) - 1)
      with (8 + (8 * Z.of_nat (length (c' :: cs')) - 1)) by lia.
    rewrite Z.pow_add_r by (simpl length; lia).
    change (2 ^ 8) with 256. lia.
Qed.

Lemma wrap_int_add (y m : Z) :
  - 2 ^ 63 ≤ y < 2 ^ 63 → wrap_int (y + m * 2 ^ 64) = y.
Proof.
  intros Hy. unfold wrap_int.
  replace (y + m * 2 ^ 64 + 2 ^ 63) with (y + 2 ^ 63 + m * 2 ^ 64) by lia.
  rewrite Z.mod_add by lia. rewrite Z.mod_small; lia.
Qed.

(** The ninth byte: the terminal byte leaves the 64-bit buffer and the
    sign bit is set. *)
Lemma pack_overflow fuel d cs t :
  0 < d < 128 → Forall is_cont cs → length cs = 7%nat → is_term t →
  pack (S (S fuel)) d (le_val (cs ++ [t])) = Ret (sval ((d + 128) :: cs)).
Proof.
  intros Hd Hcs Hlen Ht. cbn [pack].
  destruct (Z.ltb_spec 0 d) as [_ | ?]; [| lia].
  rewrite Z.shiftr_div_pow2, Z.div_small by (change (2 ^ 7) with 128; lia).
  change (0 <? 0) with false. cbv iota. f_equal.
  assert (Hne : cs ≠ []) by (intros ->; discriminate).
  pose proof (sval_bound cs Hcs Hne) as Hs. rewrite Hlen in Hs.
  change (2 ^ (8 * Z.of_nat 7 - 1)) with (2 ^ 55) in Hs.
  rewrite le_val_sval, Hlen, Z.shiftl_mul_pow2 by lia.
  replace ((sval cs + 256 ^ Z.of_nat 7 * (1 + t)) * 2 ^ 8)
    with (sval cs * 256 + (1 + t) * 2 ^ 64)
    by (change (256 ^ Z.of_nat 7) with (2 ^ 56);
        change (2 ^ 64) with (2 ^ 56 * 2 ^ 8); change (2 ^ 8) with 256; lia).
  rewrite wrap_int_add
    by (change (2 ^ 63) with (2 ^ 55 * 256); lia).
  rewrite land_7F, Z.mod_small, lor_flag, push_byte by lia.
  rewrite sval_cons. reflexivity.
Qed.

(** On a negative buffer whose bytes all carry the flag the second loop
    never sees a terminal byte. *)
Lemma unpack_diverges cs :
  Forall is_cont cs → ∀ fuel buf, unpack fuel (sval cs) buf = OutOfFuel.
Proof.
  induction 1 as [| c cs Hc Hcs IH]; intros fuel buf.
  - apply unpack_minus_one.
  - destruct fuel as [| fuel]; [reflexivity |].
    unfold is_cont in Hc. rewrite sval_cons. cbn [unpack].
    rewrite land_80_low by lia.
    destruct (Z.ltb_spec c 128) as [? | _]; [lia |].
    change (negb (128 =? 0)) with true. cbv iota.
    rewrite Z.shiftr_div_pow2 by lia. change (2 ^ 8) with 256.
    replace ((c + 256 * sval cs) / 256) with (sval cs).
    2:{ symmetry. rewrite Z.add_comm, Z.mul_comm, Z.div_add_l by lia.
        rewrite (Z.div_small c) by lia. lia. }
    apply IH.
Qed.

End VLQMore.

(** X1: a negative value skips the first loop and is written as the single
    byte of its low 7 bits. *)
Theorem writeVarLength_negative (fuel : nat) (n : Z) :
  (1 ≤ fuel)%nat → n < 0 → writeVarLength fuel n = Ret [n mod 128].
Proof.
  intros Hfuel Hn. destruct fuel as [| fuel]; [lia |].
  unfold writeVarLength. cbn [pack].
  rewrite Z.shiftr_div_pow2 by lia. change (2 ^ 7) with 128.
  assert (Hq : n / 128 < 0) by (apply Z.div_lt_upper_bound; lia).
  destruct (Z.ltb_spec 0 (n / 128)) as [? | _]; [lia |].
  unfold bind. cbn [unpack].
  pose proof (Z.mod_pos_bound n 128 ltac:(lia)) as Hm.
  rewrite land_7F, land_80_small by lia.
  unfold to_byte. rewrite (Z.mod_small (n mod 128) 256) by lia. reflexivity.
Qed.

Lemma writeVarLength_negative_witness :
  (1 ≤ 1)%nat ∧ -200 < 0 ∧ writeVarLength 1 (-200) = Ret [(-200) mod 128].
Proof.
  split; [lia |]. split; [lia |]. apply (writeVarLength_negative 1 (-200)); lia.
Defined.

(** X2: on a value of nine base-128 digits, from [2 ^ 56] up to the largest
    [int], [writeVarLength] does not return, whatever the budget: the
    terminal byte is shifted out of the buffer and the second loop finds the
    high bit set for ever. *)
Theorem writeVarLength_never_returns (fuel : nat) (n : Z) :
  2 ^ 56 ≤ n < 2 ^ 63 → writeVarLength fuel n = OutOfFuel.
Proof.
  intros Hn. unfold writeVarLength.
  rewrite Z.shiftr_div_pow2 by lia. change (2 ^ 7) with 128.
  change (2 ^ 56) with (128 * 128 ^ 7) in Hn.
  change (2 ^ 63) with (128 * (128 * 128 ^ 7)) in Hn.
  assert (Hp : 128 ^ 7 = 562949953421312) by reflexivity.
  assert (Hv : 128 ^ 7 ≤ n / 128 < 128 * 128 ^ 7).
  { split; [apply Z.div_le_lower_bound; lia | apply Z.div_lt_upper_bound; lia]. }
  destruct (Nat.le_gt_cases fuel 8) as [Hsmall | Hbig].
  - rewrite pack_starved; [reflexivity |].
    eapply Z.le_trans; [apply (Z.pow_le_mono_r 128 _ 8); lia |].
    change (128 ^ 8) with (128 * 128 ^ 7). lia.
  - destruct fuel as [| fuel]; [lia |]. destruct fuel as [| fuel]; [lia |].
    replace (S (S fuel)) with (7 + S (S (fuel - 7)))%nat at 1 by lia.
    pose proof (Z.mod_pos_bound n 128 ltac:(lia)) as Hm.
    replace (Z.land n 127) with (le_val ([] ++ [n mod 128]))
      by (rewrite land_7F; unfold le_val; simpl; lia).
    rewrite (pack_steps 7)
      by (simpl length; auto; (change (Z.of_nat 7) with 7; lia) || (unfold is_term; lia)).
    change (Z.of_nat 7) with 7. rewrite app_nil_l.
    rewrite pack_overflow.
    + unfold bind. apply unpack_diverges.
      constructor; [| apply fixed_cont_bytes].
      assert (0 < n / 128 / 128 ^ 7 < 128).
      { split; [apply Z.div_str_pos; lia | apply Z.div_lt_upper_bound; lia]. }
      unfold is_cont. lia.
    + split; [apply Z.div_str_pos; lia | apply Z.div_lt_upper_bound; lia].
    + apply fixed_cont_bytes.
    + apply fixed_cont_length.
    + unfold is_term. lia.
Qed.

Lemma writeVarLength_never_returns_witness :
  2 ^ 56 ≤ 2 ^ 60 + 5 < 2 ^ 63 ∧ writeVarLength 1000 (2 ^ 60 + 5) = OutOfFuel.
Proof.
  assert (H : 2 ^ 56 ≤ 2 ^ 60 + 5 < 2 ^ 63) by (split; [discriminate | reflexivity]).
  split; [exact H |]. exact (writeVarLength_never_returns 1000 (2 ^ 60 + 5) H).
Defined.

Lemma decode_vlq_app n rest : 0 ≤ n → decode (vlq n ++ rest) = Some (n, rest).
Proof.
  intros Hn. unfold decode, vlq. rewrite <- app_assoc.
  rewrite decode_from_cont by apply cont_bytes.
  rewrite cont_value by (apply log2_digits; lia).
  pose proof (Z.mod_pos_bound n 128 ltac:(lia)) as Hm.
  cbn [app decode_from]. rewrite land_80_small, land_7F by lia.
  change (0 =? 0) with true. cbv iota.
  do 2 f_equal. Z.div_mod_to_equations. lia.
Qed.

(** X3: the encoding delimits itself: followed by any bytes, the output of
    [writeVarLength] is decoded to the value, the bytes that follow are left
    unread; hence two values with the same encoding are equal. *)
Theorem writeVarLength_self_delimiting (fuel : nat) (n : Z) :
  (8 ≤ fuel)%nat → 0 ≤ n < 2 ^ 56 →
  ∃ bs, writeVarLength fuel n = Ret bs ∧
        (∀ rest, decode (bs ++ rest) = Some (n, rest)) ∧
        (∀ m, 0 ≤ m < 2 ^ 56 → writeVarLength fuel m = Ret bs → m = n).
Proof.
  intros Hfuel Hn. exists (vlq n).
  split; [apply writeVarLength_vlq; assumption |].
  split; [intros rest; apply decode_vlq_app; lia |].
  intros m Hm Hbs. rewrite writeVarLength_vlq in Hbs by assumption.
  injection Hbs as Hbs.
  pose proof (decode_vlq m ltac:(lia)) as Hd. rewrite Hbs in Hd.
  rewrite decode_vlq in Hd by lia. congruence.
Qed.

Lemma writeVarLength_self_delimiting_witness :
  (8 ≤ 8)%nat ∧ 0 ≤ 336 < 2 ^ 56 ∧
  ∃ bs, writeVarLength 8 336 = Ret bs ∧
        (∀ rest, decode (bs ++ rest) = Some (336, rest)) ∧
        (∀ m, 0 ≤ m < 2 ^ 56 → writeVarLength 8 m = Ret bs → m = 336).
Proof.
  assert (H : 0 ≤ 336 < 2 ^ 56) by (split; [discriminate | reflexivity]).
  split; [lia |]. split; [exact H |].
  apply (writeVarLength_self_delimiting 8 336); [lia | exact H].
Defined.

Lemma vlq_length_upper n k :
  0 ≤ n → (length (vlq n) ≤ k)%nat → n < 128 ^ Z.of_nat k.
Proof.
  intros Hn Hlen. pose proof (decode_vlq n Hn) as Hd.
  apply decode_from_upper in Hd as [_ Hup]; [| lia].
  simpl length in Hup. rewrite Nat.sub_0_r in Hup.
  eapply Z.lt_le_trans; [exact Hup |].
  rewrite Z.mul_1_l. apply Z.pow_le_mono_r; lia.
Qed.

Lemma vlq_length_lower n k :
  0 ≤ n → (1 ≤ k)%nat → n < 128 ^ Z.of_nat k → (length (vlq n) ≤ k)%nat.
Proof.
  intros Hn Hk Hlt. unfold vlq. rewrite length_app. simpl length.
  destruct (Z.eq_dec (n / 128) 0) as [E | NE].
  - rewrite E, cont_zero. simpl. lia.
  - pose proof (Z.div_pos n 128).
    pose proof (cont_lower (Z.to_nat (Z.log2 n)) (n / 128) ltac:(lia)) as Hlow.
    assert (128 * (n / 128) ≤ n) by (Z.div_mod_to_equations; lia).
    assert (Hpow : 128 ^ Z.of_nat (length (cont (Z.to_nat (Z.log2 n)) (n / 128)))
                   < 128 ^ Z.of_nat k) by lia.
    apply Z.pow_lt_mono_r_iff in Hpow; lia.
Qed.

(** X4: the size of the encoding: between 1 and 8 bytes, and at most [k]
    bytes exactly for the values below [128 ^ k]. *)
Theorem writeVarLength_size (fuel : nat) (n : Z) :
  (8 ≤ fuel)%nat → 0 ≤ n < 2 ^ 56 →
  ∃ bs, writeVarLength fuel n = Ret bs ∧
        (1 ≤ length bs ≤ 8)%nat ∧
        ∀ k, (1 ≤ k)%nat → (length bs ≤ k)%nat ↔ n < 128 ^ Z.of_nat k.
Proof.
  intros Hfuel Hn. exists (vlq n).
  split; [apply writeVarLength_vlq; assumption |].
  split.
  - split.
    + unfold vlq. rewrite length_app. simpl. lia.
    + apply vlq_length_lower; [lia | lia |]. exact (proj2 Hn).
  - intros k Hk. split.
    + apply vlq_length_upper. lia.
    + apply vlq_length_lower; lia.
Qed.

Lemma writeVarLength_size_witness :
  (8 ≤ 8)%nat ∧ 0 ≤ 16383 < 2 ^ 56 ∧
  ∃ bs, writeVarLength 8 16383 = Ret bs ∧
        (1 ≤ length bs ≤ 8)%nat ∧
        ∀ k, (1 ≤ k)%nat → (length bs ≤ k)%nat ↔ 16383 < 128 ^ Z.of_nat k.
Proof.
  assert (H : 0 ≤ 16383 < 2 ^ 56) by (split; [discriminate | reflexivity]).
  split; [lia |]. split; [exact H |].
  apply (writeVarLength_size 8 16383); [lia | exact H].
Defined.

(** ** The track builder on any string and any BPM *)

Section TrackMore.

Lemma symbolLoop_app fuel a : ∀ b st,
  symbolLoop fuel (a ++ b) st
  = (let! st' := symbolLoop fuel a st in symbolLoop fuel b st').
Proof.
  induction a as [| r a IH]; intros b st; [reflexivity |].
  rewrite <- app_comm_cons. cbn [symbolLoop].
  destruct (onSymbol fuel st r) as [st' | |]; cbn [bind]; [apply IH | |];
    reflexivity.
Qed.

Lemma buildTrack_ext fuel m1 m2 bpm :
  (∀ st, symbolLoop fuel m1 st = symbolLoop fuel m2 st) →
  buildTrack fuel m1 bpm = buildTrack fuel m2 bpm.
Proof.
  intros H. unfold buildTrack.
  destruct (setTempo bpm) as [tempo | |]; cbn [bind]; [| reflexivity ..].
  rewrite H. reflexivity.
Qed.

Lemma midiData_ext fuel m1 m2 bpm :
  buildTrack fuel m1 bpm = buildTrack fuel m2 bpm →
  midiData fuel m1 bpm = midiData fuel m2 bpm.
Proof. intros H. unfold midiData. rewrite H. reflexivity. Qed.

Lemma symbolLoop_middle fuel pre m1 m2 :
  (∀ st, symbolLoop fuel m1 st = symbolLoop fuel m2 st) →
  ∀ st, symbolLoop fuel (pre ++ m1) st = symbolLoop fuel (pre ++ m2) st.
Proof.
  intros H st. rewrite !symbolLoop_app.
  destruct (symbolLoop fuel pre st); cbn [bind]; auto.
Qed.

Lemma onSymbol_no_symbol fuel st r : no_symbol r → onSymbol fuel st r = Ret st.
Proof.
  intros (H1 & H2 & H3 & H4). unfold onSymbol.
  destruct (Z.eqb_spec r (rune_of ".")); [contradiction |].
  destruct (Z.eqb_spec r (rune_of "-")); [contradiction |].
  destruct (Z.eqb_spec r (rune_of " ")); [contradiction |].
  destruct (Z.eqb_spec r (rune_of "/")); [contradiction |].
  reflexivity.
Qed.

Lemma onSymbol_silent fuel st r :
  silent r →
  ∃ t, (t = 4 * dot ∨ t = pause) ∧
       ∀ t0, onSymbol fuel (Builder (track st) t0) r = Ret (Builder (track st) t).
Proof.
  intros [-> | ->].
  - exists (4 * dot). split; [left; reflexivity |]. reflexivity.
  - exists pause. split; [right; reflexivity |]. reflexivity.
Qed.

(** The length of what follows the tempo event. *)
Lemma rune_events_length morse : ∀ t,
  t = 0 ∨ t = 48 ∨ t = 192 ∨ t = 336 →
  (4 ≤ length (rune_events t morse) ≤ 10 * length morse + 5)%nat.
Proof.
  induction morse as [| r morse IH]; intros t Ht.
  - destruct Ht as [-> | [-> | [-> | ->]]]; simpl; lia.
  - cbn [rune_events length].
    pose proof (IH 48 ltac:(auto)) as I48.
    pose proof (IH 192 ltac:(auto)) as I192.
    pose proof (IH 336 ltac:(auto)) as I336.
    pose proof (IH t Ht) as It.
    assert (Hn : ∀ d, d = 48 ∨ d = 144 →
                 (8 ≤ length (note_event t d) ≤ 10)%nat).
    { intros d [-> | ->]; destruct Ht as [-> | [-> | [-> | ->]]]; simpl; lia. }
    pose proof (Hn 48 ltac:(auto)). pose proof (Hn 144 ltac:(auto)).
    destruct (r =? rune_of "."); [rewrite length_app; lia |].
    destruct (r =? rune_of "-"); [rewrite length_app; lia |].
    destruct (r =? rune_of " "); [lia |].
    destruct (r =? rune_of "/"); lia.
Qed.

End TrackMore.

(** X5: the track builder passes over every rune that is no Morse symbol:
    with such a rune anywhere in the string, the track buffer and the file
    contents are those of the string without it. *)
Theorem buildTrack_ignores_other_runes
    (fuel : nat) (pre : list rune) (r : rune) (post : list rune) (bpm : Z) :
  no_symbol r →
  buildTrack fuel (pre ++ r :: post) bpm = buildTrack fuel (pre ++ post) bpm ∧
  midiData fuel (pre ++ r :: post) bpm = midiData fuel (pre ++ post) bpm.
Proof.
  intros Hr.
  assert (H : buildTrack fuel (pre ++ r :: post) bpm = buildTrack fuel (pre ++ post) bpm).
  { apply buildTrack_ext, symbolLoop_middle. intros st.
    cbn [symbolLoop]. rewrite onSymbol_no_symbol by assumption. reflexivity. }
  split; [exact H | apply midiData_ext, H].
Qed.

Lemma buildTrack_ignores_other_runes_witness :
  no_symbol (rune_of "x") ∧
  buildTrack 8 (runes ".-" ++ rune_of "x" :: runes "-.") 120
  = buildTrack 8 (runes ".-" ++ runes "-.") 120.
Proof.
  assert (H : no_symbol (rune_of "x")) by (repeat split; discriminate).
  split; [exact H |].
  exact (proj1 (buildTrack_ignores_other_runes 8 (runes ".-") (rune_of "x")
                  (runes "-.") 120 H)).
Defined.

(** X6: silence is set, not accumulated: of two consecutive symbols that
    emit no note (space or ['/']) the first has no effect on the track. *)
Theorem buildTrack_silence_not_accumulated
    (fuel : nat) (pre : list rune) (s1 s2 : rune) (post : list rune) (bpm : Z) :
  silent s1 → silent s2 →
  buildTrack fuel (pre ++ s1 :: s2 :: post) bpm
  = buildTrack fuel (pre ++ s2 :: post) bpm.
Proof.
  intros H1 H2. apply buildTrack_ext, symbolLoop_middle. intros [trk t0].
  destruct (onSymbol_silent fuel (Builder trk t0) s1 H1) as (t1 & _ & E1).
  destruct (onSymbol_silent fuel (Builder trk t0) s2 H2) as (t2 & _ & E2).
  cbn [track] in E1, E2. cbn [symbolLoop].
  rewrite (E1 t0). cbn [bind]. rewrite (E2 t1), (E2 t0). reflexivity.
Qed.

Lemma buildTrack_silence_not_accumulated_witness :
  silent (rune_of "/") ∧ silent (rune_of " ") ∧
  buildTrack 8 (runes "." ++ rune_of "/" :: rune_of " " :: runes "-") 120
  = buildTrack 8 (runes "." ++ rune_of " " :: runes "-") 120.
Proof.
  assert (H1 : silent (rune_of "/")) by (right; reflexivity).
  assert (H2 : silent (rune_of " ")) by (left; reflexivity).
  split; [exact H1 |]. split; [exact H2 |].
  exact (buildTrack_silence_not_accumulated 8 (runes ".") (rune_of "/") (rune_of " ")
           (runes "-") 120 H1 H2).
Defined.

(** X7: the track buffer has between 11 and [10 * len(morse) + 12] bytes;
    hence for every string of at most 429496728 runes the length field of
    the track chunk holds the exact length of the track buffer. *)
Theorem track_length_bounds (fuel : nat) (morse : list rune) (bpm : Z) :
  (8 ≤ fuel)%nat → bpm ≠ 0 →
  ∃ trk, buildTrack fuel morse bpm = Ret trk ∧
         (11 ≤ length trk ≤ 10 * length morse + 12)%nat ∧
         (Z.of_nat (length morse) ≤ 429496728 →
          ∃ lenfield,
            midiData fuel morse bpm = Ret (header ++ trackHeader ++ lenfield ++ trk) ∧
            length lenfield = 4%nat ∧
            be_val lenfield = Z.of_nat (length trk)).
Proof.
  intros Hfuel Hbpm.
  destruct (buildTrack_events fuel morse bpm Hfuel Hbpm) as (tempo & _ & Hlen & Hb).
  pose proof (rune_events_length morse 0 ltac:(auto)) as Hev.
  exists (tempo ++ rune_events 0 morse).
  assert (Hl : (11 ≤ length (tempo ++ rune_events 0 morse) ≤ 10 * length morse + 12)%nat)
    by (rewrite length_app, Hlen; lia).
  split; [exact Hb |]. split; [exact Hl |].
  intros Hsmall. eexists. split; [apply midiData_ok, Hb |].
  split; [apply PutUint32_length |].
  unfold to_uint32. change (2 ^ 32) with 4294967296.
  rewrite Z.mod_small by lia.
  apply be_val_PutUint32. change (2 ^ 32) with 4294967296. lia.
Qed.

Lemma track_length_bounds_witness :
  (8 ≤ 8)%nat ∧ 120 ≠ 0 ∧
  ∃ trk, buildTrack 8 (runes "-- ---") 120 = Ret trk ∧
         (11 ≤ length trk ≤ 10 * length (runes "-- ---") + 12)%nat.
Proof.
  split; [lia |]. split; [discriminate |].
  destruct (track_length_bounds 8 (runes "-- ---") 120) as (trk & Hb & Hl & _);
    [lia | discriminate |].
  exists trk. split; [exact Hb | exact Hl].
Defined.

(** X8: every BPM other than 0 is accepted, negative ones too: the tempo
    payload is the low 24 bits of the quotient truncated toward zero, and it
    is [00 00 00] (a tempo of 0 microseconds per quarter note) for every BPM
    above 60000000 in absolute value. *)
Theorem tempo_any_bpm (fuel : nat) (morse : list rune) (bpm : Z) :
  (8 ≤ fuel)%nat → bpm ≠ 0 →
  ∃ b1 b2 b3,
    buildTrack fuel morse bpm
    = Ret ([0x00; 0xFF; 0x51; 0x03; b1; b2; b3] ++ rune_events 0 morse) ∧
    be_val [b1; b2; b3] = (60000000 ÷ bpm) mod 2 ^ 24 ∧
    (60000000 < Z.abs bpm → [b1; b2; b3] = [0; 0; 0]).
Proof.
  intros Hfuel Hbpm.
  destruct (buildTrack_events fuel morse bpm Hfuel Hbpm) as (tempo & Ht & _ & Hb).
  rewrite setTempo_ok in Ht by assumption. injection Ht as <-.
  eexists _, _, _. split; [exact Hb |]. split; [apply be_val_low24 |].
  intros Habs.
  assert (Hq : 60000000 ÷ bpm = 0).
  { destruct (Z.lt_ge_cases bpm 0) as [Hneg | Hpos].
    - rewrite <- (Z.opp_involutive bpm), Z.quot_opp_r by lia.
      rewrite Z.quot_small by lia. reflexivity.
    - apply Z.quot_small. lia. }
  rewrite Hq. reflexivity.
Qed.

Lemma tempo_any_bpm_witness :
  (8 ≤ 8)%nat ∧ -7 ≠ 0 ∧
  ∃ b1 b2 b3,
    buildTrack 8 (runes ".") (-7)
    = Ret ([0x00; 0xFF; 0x51; 0x03; b1; b2; b3] ++ rune_events 0 (runes ".")) ∧
    be_val [b1; b2; b3] = (60000000 ÷ -7) mod 2 ^ 24.
Proof.
  split; [lia |]. split; [discriminate |].
  destruct (tempo_any_bpm 8 (runes ".") (-7)) as (b1 & b2 & b3 & Hb & Hv & _);
    [lia | discriminate |].
  exists b1, b2, b3. split; [exact Hb | exact Hv].
Defined.

(** ** The symbol mapper: composition, size and what it keeps *)

Section MapperMore.
Context (lowerTable : rune → rune).

Ltac split_leb :=
  repeat match goal with
         | |- context [?a <=? ?b] => destruct (Z.leb_spec a b); cbn [andb]
         end.

Lemma Join_cons e rest sep :
  Join (e :: rest) sep
  = e ++ match rest with [] => [] | _ :: _ => sep ++ Join rest sep end.
Proof. destruct rest; [rewrite app_nil_r |]; reflexivity. Qed.

Lemma Join_app A : ∀ B sep,
  A ≠ [] → B ≠ [] → Join (A ++ B) sep = Join A sep ++ sep ++ Join B sep.
Proof.
  induction A as [| a A IH]; intros B sep HA HB; [congruence |].
  destruct A as [| a' A'].
  - destruct B as [| b B]; [congruence |]. reflexivity.
  - rewrite <- app_comm_cons.
    change (Join (a :: (a' :: A') ++ B) sep)
      with (a ++ sep ++ Join ((a' :: A') ++ B) sep).
    rewrite IH by (discriminate || assumption).
    change (Join (a :: a' :: A') sep) with (a ++ sep ++ Join (a' :: A') sep).
    rewrite <- !app_assoc. reflexivity.
Qed.

Lemma Split_app_space a : ∀ b,
  Split (a ++ rune_of " " :: b) = Split a ++ Split b.
Proof.
  induction a as [| r a IH]; intros b.
  - reflexivity.
  - rewrite <- app_comm_cons, !Split_cons, IH.
    destruct (r =? rune_of " "); [reflexivity |].
    pose proof (Split_nonempty a) as Hne.
    destruct (Split a) as [| w ws]; [contradiction | reflexivity].
Qed.

Lemma fmap_nonempty {A B : Type} (f : A → B) (l : list A) : l ≠ [] → f <$> l ≠ [].
Proof. destruct l; [congruence | discriminate]. Qed.

Lemma textToMorse_space x y :
  textToMorse lowerTable (x ++ rune_of " " :: y)
  = textToMorse lowerTable x ++ rune_of "/" :: textToMorse lowerTable y.
Proof.
  rewrite !textToMorse_spec. unfold morse_spec.
  rewrite ToLower_app, ToLower_cons.
  change (unicode_ToLower lowerTable (rune_of " ")) with (rune_of " ").
  rewrite Split_app_space, fmap_app.
  rewrite Join_app by (apply fmap_nonempty, Split_nonempty). reflexivity.
Qed.

(** *** Size *)

Lemma morseCode_code_length r code :
  morseCode !! r = Some code → (1 ≤ length code ≤ 4)%nat.
Proof.
  with_strategy transparent [morseCode] unfold morseCode.
  intros H. apply elem_of_list_to_map_2 in H.
  repeat (apply elem_of_cons in H as [H | H];
          [injection H as -> ->; simpl; lia |]).
  apply elem_of_nil in H; contradiction.
Qed.

Lemma codes_cons_length c word :
  (length (Join (letter_codes (c :: word)) (runes " "))
   ≤ 5 + length (Join (letter_codes word) (runes " ")))%nat.
Proof.
  rewrite letter_codes_cons. destruct (morseCode !! c) as [code |] eqn:E; [| lia].
  apply morseCode_code_length in E.
  rewrite Join_cons, length_app.
  destruct (letter_codes word); simpl length; lia.
Qed.

Lemma Join_cons2 e e' rest sep :
  Join (e :: e' :: rest) sep = e ++ sep ++ Join (e' :: rest) sep.
Proof. reflexivity. Qed.

Lemma morse_spec_length s :
  (length (Join (word_spec lowerTable <$> Split s) (runes "/")) ≤ 5 * length s)%nat.
Proof.
  induction s as [| r s IH]; [simpl; lia |].
  rewrite Split_cons. cbn [length].
  pose proof (Split_nonempty s) as Hne.
  destruct (Split s) as [| w ws]; [contradiction |].
  rewrite fmap_cons in IH.
  destruct (r =? rune_of " ").
  - rewrite !fmap_cons, Join_cons2, !length_app.
    change (length (word_spec lowerTable [])) with 0%nat.
    change (length (runes "/")) with 1%nat. lia.
  - rewrite fmap_cons. rewrite Join_cons, length_app in IH |- *.
    pose proof (codes_cons_length (unicode_ToLower lowerTable r) (ToLower lowerTable w)) as Hc.
    unfold word_spec at 1. rewrite ToLower_cons.
    unfold word_spec at 1 in IH. lia.
Qed.

(** *** What the mapping keeps *)

Lemma prefix_sep_eq (s : rune) a : ∀ b X Y,
  Forall (λ r, r ≠ s) a → Forall (λ r, r ≠ s) b →
  (X = [] ∨ ∃ X', X = s :: X') → (Y = [] ∨ ∃ Y', Y = s :: Y') →
  a ++ X = b ++ Y → a = b ∧ X = Y.
Proof.
  induction a as [| c a IH]; intros b X Y Ha Hb HX HY E.
  - destruct b as [| d b]; [auto |]. cbn [app] in E.
    apply Forall_cons in Hb as [Hd _].
    destruct HX as [HX | [X' HX]]; rewrite HX in E; [discriminate |].
    injection E as E _. congruence.
  - apply Forall_cons in Ha as [Hc Ha'].
    destruct b as [| d b].
    + cbn [app] in E. destruct HY as [HY | [Y' HY]]; rewrite HY in E; [discriminate |].
      injection E as E _. congruence.
    + apply Forall_cons in Hb as [Hd Hb']. cbn [app] in E. injection E as -> E.
      destruct (IH b X Y Ha' Hb' HX HY E) as [-> ->]. auto.
Qed.

Lemma Join_inj (s : rune) A : ∀ B,
  A ≠ [] → B ≠ [] →
  Forall (Forall (λ r, r ≠ s)) A → Forall (Forall (λ r, r ≠ s)) B →
  Join A [s] = Join B [s] → A = B.
Proof.
  induction A as [| a A IH]; intros B HA HB FA FB E; [congruence |].
  destruct B as [| b B]; [congruence |].
  inversion FA as [| ? ? Fa FA']; subst. inversion FB as [| ? ? Fb FB']; subst.
  rewrite !Join_cons in E.
  apply prefix_sep_eq with (s := s) in E as [-> E]; try assumption.
  - f_equal. destruct A as [| a' A'], B as [| b' B']; try discriminate; [reflexivity |].
    simpl in E. injection E as E.
    apply IH; (discriminate || assumption).
  - destruct A; [left; reflexivity | right; eexists; reflexivity].
  - destruct B; [left; reflexivity | right; eexists; reflexivity].
Qed.

Lemma Join_Split s : Join (Split s) (runes " ") = s.
Proof.
  induction s as [| r s IH]; [reflexivity |].
  rewrite Split_cons.
  pose proof (Split_nonempty s) as Hne.
  destruct (Split s) as [| w ws]; [contradiction |].
  destruct (Z.eqb_spec r (rune_of " ")) as [-> | _].
  - rewrite Join_cons, IH. reflexivity.
  - rewrite Join_cons in IH |- *. rewrite <- app_comm_cons, IH. reflexivity.
Qed.

Lemma Split_no_space s : Forall (Forall (λ r, r ≠ rune_of " ")) (Split s).
Proof.
  induction s as [| r s IH]; [repeat constructor |].
  rewrite Split_cons.
  destruct (Z.eqb_spec r (rune_of " ")) as [-> | Hne].
  - constructor; [constructor | exact IH].
  - destruct (Split s) as [| w ws]; [repeat constructor; assumption |].
    inversion IH; subst. constructor; [constructor |]; assumption.
Qed.

Ltac table_cases H :=
  with_strategy transparent [morseCode] unfold morseCode in H;
  apply elem_of_list_to_map_2 in H;
  match type of H with
  | ?p ∈ ?l => let l' := eval vm_compute in l in change (p ∈ l') in H
  end.

(** Distinct letters have distinct codes. *)
Lemma morseCode_inj a b code :
  morseCode !! a = Some code → morseCode !! b = Some code → a = b.
Proof.
  intros Ha Hb. table_cases Ha. table_cases Hb.
  repeat (apply elem_of_cons in Ha as [Ha | Ha];
          [injection Ha as -> ->;
           repeat (apply elem_of_cons in Hb as [Hb | Hb];
                   [(injection Hb as ->; reflexivity) || discriminate Hb |]);
           apply elem_of_nil in Hb; contradiction |]).
  apply elem_of_nil in Ha; contradiction.
Qed.

Lemma morseCode_letter r : lower_letter r → is_Some (morseCode !! r).
Proof.
  intros Hr. destruct (morseCode !! r) eqn:E; [eexists; reflexivity |].
  exfalso. revert E. with_strategy transparent [morseCode] unfold morseCode.
  intros E. apply not_elem_of_list_to_map_2 in E. apply E.
  match goal with
  | |- _ ∈ ?l => let l' := eval vm_compute in l in change (r ∈ l')
  end.
  unfold lower_letter in Hr. rewrite !elem_of_cons. lia.
Qed.

Lemma letter_codes_inj w : ∀ w',
  Forall lower_letter w → Forall lower_letter w' →
  letter_codes w = letter_codes w' → w = w'.
Proof.
  induction w as [| c w IH]; intros w' Hw Hw' E.
  - destruct w' as [| c' w']; [reflexivity |].
    inversion Hw' as [| ? ? Hc' _]; subst.
    rewrite letter_codes_cons in E.
    destruct (morseCode_letter c' Hc') as [code Hcode]. rewrite Hcode in E.
    discriminate.
  - inversion Hw as [| ? ? Hc Hw1]; subst.
    rewrite letter_codes_cons in E.
    destruct (morseCode_letter c Hc) as [code Hcode]. rewrite Hcode in E.
    destruct w' as [| c' w']; [discriminate |].
    inversion Hw' as [| ? ? Hc' Hw1']; subst.
    rewrite letter_codes_cons in E.
    destruct (morseCode_letter c' Hc') as [code' Hcode']. rewrite Hcode' in E.
    injection E as <- E.
    rewrite (morseCode_inj c c' code Hcode Hcode').
    f_equal. apply IH; assumption.
Qed.

Lemma letter_codes_space_free w :
  Forall (Forall (λ r, r ≠ rune_of " ")) (letter_codes w).
Proof.
  eapply Forall_impl; [apply letter_codes_Forall |].
  intros code Hcode. eapply Forall_impl; [exact Hcode |].
  intros r [-> | ->]; discriminate.
Qed.

Lemma letter_codes_nonempty w : Forall (λ code, code ≠ []) (letter_codes w).
Proof.
  induction w as [| c w IH]; [constructor |].
  rewrite letter_codes_cons. destruct (morseCode !! c) as [code |] eqn:E; [| exact IH].
  constructor; [| exact IH].
  apply morseCode_code_length in E. intros ->. simpl in E. lia.
Qed.

Lemma joined_codes_inj w w' :
  Forall lower_letter w → Forall lower_letter w' →
  Join (letter_codes w) (runes " ") = Join (letter_codes w') (runes " ") → w = w'.
Proof.
  intros Hw Hw' E. apply letter_codes_inj; try assumption.
  pose proof (letter_codes_nonempty w) as N.
  pose proof (letter_codes_nonempty w') as N'.
  pose proof (letter_codes_space_free w) as F.
  pose proof (letter_codes_space_free w') as F'.
  destruct (letter_codes w) as [| c C], (letter_codes w') as [| c' C'].
  - reflexivity.
  - inversion N' as [| ? ? Hc' _]; subst. rewrite Join_cons in E.
    destruct c'; [congruence | discriminate].
  - inversion N as [| ? ? Hc _]; subst. rewrite Join_cons in E.
    destruct c; [congruence | discriminate].
  - apply (Join_inj (rune_of " ")); (discriminate || assumption).
Qed.

Lemma lower_letter_fixed r : lower_letter r → unicode_ToLower lowerTable r = r.
Proof.
  unfold lower_letter. intros Hr. unfold unicode_ToLower.
  change (rune_of "A") with 65. change (rune_of "Z") with 90.
  split_leb; lia.
Qed.

Lemma word_spec_lower w :
  Forall lower_letter w →
  word_spec lowerTable w = Join (letter_codes w) (runes " ").
Proof.
  intros Hw. unfold word_spec. f_equal. f_equal.
  induction Hw as [| r w Hr Hw IH]; [reflexivity |].
  rewrite ToLower_cons, IH, lower_letter_fixed by assumption. reflexivity.
Qed.

Lemma word_spec_slash_free w :
  Forall (λ r, r ≠ rune_of "/") (word_spec lowerTable w).
Proof.
  unfold word_spec. apply Join_Forall.
  - eapply Forall_impl; [apply letter_codes_Forall |].
    intros code Hcode. eapply Forall_impl; [exact Hcode |].
    intros r [-> | ->]; discriminate.
  - apply Forall_singleton. discriminate.
Qed.

Lemma ToLower_letter_or_space r :
  letter_or_space r →
  unicode_ToLower lowerTable r = rune_of " " ∨ lower_letter (unicode_ToLower lowerTable r).
Proof.
  unfold letter_or_space, lower_letter, unicode_ToLower.
  change (rune_of "A") with 65. change (rune_of "Z") with 90.
  change (rune_of "a") with 97. change (rune_of " ") with 32.
  intros Hr. split_leb; lia.
Qed.

Lemma Split_lowered_words x :
  Forall letter_or_space x →
  Forall (Forall lower_letter) (Split (ToLower lowerTable x)).
Proof.
  intros Hx.
  assert (H1 : Forall (Forall (λ r, r = rune_of " " ∨ lower_letter r))
                      (Split (ToLower lowerTable x))).
  { apply Split_Forall. unfold ToLower. apply Forall_fmap.
    eapply Forall_impl; [exact Hx |]. intros r Hr. apply ToLower_letter_or_space, Hr. }
  pose proof (Split_no_space (ToLower lowerTable x)) as H2.
  induction H1 as [| w ws Hw Hws IH]; [constructor |].
  inversion H2 as [| ? ? Hn Hns]; subst. constructor; [| apply IH, Hns].
  clear - Hw Hn. induction Hw as [| r w [-> | Hr] Hw IH].
  - constructor.
  - inversion Hn; subst. congruence.
  - inversion Hn; subst. constructor; auto.
Qed.

Lemma fmap_inj_on {A B : Type} (P : A → Prop) (f : A → B) (l : list A) : ∀ l',
  (∀ a b, P a → P b → f a = f b → a = b) →
  Forall P l → Forall P l' → f <$> l = f <$> l' → l = l'.
Proof.
  induction l as [| a l IH]; intros l' Hinj Hl Hl' E.
  - destruct l'; [reflexivity | discriminate].
  - destruct l' as [| a' l']; [discriminate |].
    inversion Hl; subst. inversion Hl'; subst.
    rewrite !fmap_cons in E. injection E as Ea E.
    f_equal; [apply Hinj; assumption | apply IH; assumption].
Qed.

End MapperMore.

(** X9: the Morse string of the command line is the Morse strings of the
    arguments joined by ['/']: mapping distributes over joining with
    spaces. *)
Theorem textToMorse_of_joined_args (lowerTable : rune → rune) (args : list (list rune)) :
  textToMorse lowerTable (Join args (runes " "))
  = Join (textToMorse lowerTable <$> args) (runes "/").
Proof.
  induction args as [| a args IH]; [reflexivity |].
  destruct args as [| a' args']; [reflexivity |].
  change (Join (a :: a' :: args') (runes " "))
    with (a ++ rune_of " " :: Join (a' :: args') (runes " ")).
  rewrite textToMorse_space, IH. reflexivity.
Qed.

(** X10: the Morse string is at most five times as long as the text. *)
Theorem textToMorse_length (lowerTable : rune → rune) (text : list rune) :
  (length (textToMorse lowerTable text) ≤ 5 * length text)%nat.
Proof.
  rewrite textToMorse_spec. unfold morse_spec.
  eapply Nat.le_trans; [apply morse_spec_length |].
  unfold ToLower. rewrite length_fmap. lia.
Qed.

(** X11: on texts of ASCII letters and spaces the mapping loses nothing but
    the case: two such texts with the same Morse string have the same
    lower-case form. *)
Theorem textToMorse_injective (lowerTable : rune → rune) (x y : list rune) :
  Forall letter_or_space x → Forall letter_or_space y →
  textToMorse lowerTable x = textToMorse lowerTable y →
  ToLower lowerTable x = ToLower lowerTable y.
Proof.
  intros Hx Hy E. rewrite !textToMorse_spec in E. unfold morse_spec in E.
  pose proof (Split_lowered_words lowerTable x Hx) as Wx.
  pose proof (Split_lowered_words lowerTable y Hy) as Wy.
  apply (Join_inj (rune_of "/")) in E.
  - apply (fmap_inj_on (Forall lower_letter)) in E; try assumption.
    + rewrite <- (Join_Split (ToLower lowerTable x)), E. apply Join_Split.
    + intros w w' Hw Hw' Ew.
      rewrite !word_spec_lower in Ew by assumption.
      apply joined_codes_inj; assumption.
  - apply fmap_nonempty, Split_nonempty.
  - apply fmap_nonempty, Split_nonempty.
  - apply Forall_fmap, Forall_forall. intros w _. apply word_spec_slash_free.
  - apply Forall_fmap, Forall_forall. intros w _. apply word_spec_slash_free.
Qed.

Lemma textToMorse_injective_witness :
  Forall letter_or_space (runes "So S") ∧ Forall letter_or_space (runes "sO s") ∧
  ToLower identity_table (runes "So S") = ToLower identity_table (runes "sO s").
Proof.
  assert (H1 : Forall letter_or_space (runes "So S")).
  { repeat (apply Forall_cons_2;
            [unfold letter_or_space; cbv; intuition congruence |]).
    apply Forall_nil_2. }
  assert (H2 : Forall letter_or_space (runes "sO s")).
  { repeat (apply Forall_cons_2;
            [unfold letter_or_space; cbv; intuition congruence |]).
    apply Forall_nil_2. }
  split; [exact H1 |]. split; [exact H2 |].
  apply (textToMorse_injective identity_table (runes "So S") (runes "sO s") H1 H2).
  vm_compute. reflexivity.
Defined.

(** ** The command on a text that is not blank *)

Section ProgramMore.
Context (lowerTable : rune → rune) (spaceTable : rune → bool).
Context (FS : Type) (os_WriteFile : FS → list rune → list byte → Z → FS * option error).

Lemma ReplaceAll_no_space s :
  Forall (λ r, r ≠ rune_of " ") (ReplaceAll_space_hyphen s).
Proof.
  unfold ReplaceAll_space_hyphen. apply Forall_fmap, Forall_forall.
  intros r _. simpl. destruct (Z.eqb_spec r (rune_of " ")); [discriminate | assumption].
Qed.

End ProgramMore.

(** X12: on a text that is not blank and a BPM other than 0 the command
    calls [os.WriteFile] once, on the file named after the text (spaces
    replaced by hyphens, so the name has no space, then [.mid]), with the
    buffer built from the Morse string of the text and mode 0644; it exits
    with code 0 when the write succeeds and prints the error twice and exits
    with code 1 when it fails. *)
Theorem main_writes_one_file
    (lowerTable : rune → rune) (spaceTable : rune → bool)
    (FS : Type) (os_WriteFile : FS → list rune → list byte → Z → FS * option error)
    (fuel : nat) (args : list (list rune)) (bpm : Z) (fs : FS) :
  (8 ≤ fuel)%nat → bpm ≠ 0 →
  TrimSpace spaceTable (Join args (runes " ")) ≠ [] →
  ∃ data,
    midiData fuel (textToMorse lowerTable (Join args (runes " "))) bpm = Ret data ∧
    Forall (λ r, r ≠ rune_of " ")
           (ReplaceAll_space_hyphen (Join args (runes " ")) ++ runes ".mid") ∧
    main lowerTable spaceTable FS os_WriteFile fuel args bpm fs
    = Ret (match os_WriteFile fs
                   (ReplaceAll_space_hyphen (Join args (runes " ")) ++ runes ".mid")
                   data 420 with
           | (fs', None) =>
               Run [runes "Input text: " ++ Join args (runes " ");
                    runes "Morse code: " ++ textToMorse lowerTable (Join args (runes " "));
                    runes "MIDI file saved as "
                      ++ ReplaceAll_space_hyphen (Join args (runes " ")) ++ runes ".mid"]
                   fs' 0
           | (fs', Some e) =>
               Run [runes "Input text: " ++ Join args (runes " ");
                    runes "Morse code: " ++ textToMorse lowerTable (Join args (runes " "));
                    runes "Error writing MIDI file: " ++ e;
                    runes "Error: " ++ e;
                    runes "Use --help for more information."]
                   fs' 1
           end).
Proof.
  intros Hfuel Hbpm Htext.
  destruct (midiData_total fuel (textToMorse lowerTable (Join args (runes " "))) bpm
              Hfuel Hbpm) as [data Hdata].
  exists data. split; [exact Hdata |]. split.
  - apply Forall_app. split; [apply ReplaceAll_no_space |].
    repeat (apply Forall_cons_2; [discriminate |]). apply Forall_nil_2.
  - unfold main, Action. rewrite bool_decide_eq_false_2 by exact Htext.
    unfold createMIDI. rewrite Hdata. cbn [bind].
    destruct (os_WriteFile fs _ data 420) as [fs' [e |]]; reflexivity.
Qed.

Lemma main_writes_one_file_witness :
  (8 ≤ 8)%nat ∧ 120 ≠ 0 ∧
  TrimSpace no_space_table (Join [runes "so"; runes "s"] (runes " ")) ≠ [] ∧
  ∃ data,
    midiData 8 (textToMorse identity_table (runes "so s")) 120 = Ret data ∧
    files <$> (match main identity_table no_space_table mem_fs mem_WriteFile 8
                           [runes "so"; runes "s"] 120 [] with
               | Ret r => Some r
               | _ => None
               end)
    = Some [(runes "so-s.mid", data)].
Proof.
  assert (Ht : TrimSpace no_space_table (Join [runes "so"; runes "s"] (runes " ")) ≠ [])
    by (vm_compute; discriminate).
  split; [lia |]. split; [discriminate |]. split; [exact Ht |].
  destruct (main_writes_one_file identity_table no_space_table mem_fs mem_WriteFile
              8 [runes "so"; runes "s"] 120 []) as (data & Hdata & _ & Hmain);
    [lia | discriminate | exact Ht |].
  exists data. split; [exact Hdata |]. rewrite Hmain. reflexivity.
Defined.

(** X13: for every command line of at most 85899345 runes the file handed
    to [os.WriteFile] is well formed: header chunk, [MTrk], and a length
    field that holds the exact length of the track buffer after it. *)
Theorem command_line_file_well_formed
    (lowerTable : rune → rune) (fuel : nat) (text : list rune) (bpm : Z) :
  (8 ≤ fuel)%nat → bpm ≠ 0 → Z.of_nat (length text) ≤ 85899345 →
  ∃ trk lenfield,
    buildTrack fuel (textToMorse lowerTable text) bpm = Ret trk ∧
    midiData fuel (textToMorse lowerTable text) bpm
    = Ret (header ++ trackHeader ++ lenfield ++ trk) ∧
    length lenfield = 4%nat ∧
    be_val lenfield = Z.of_nat (length trk) ∧
    (length trk ≤ 50 * length text + 12)%nat.
Proof.
  intros Hfuel Hbpm Hlen.
  pose proof (textToMorse_length lowerTable text) as Hm.
  destruct (track_length_bounds fuel (textToMorse lowerTable text) bpm Hfuel Hbpm)
    as (trk & Hb & Hl & Hfield).
  destruct Hfield as (lenfield & Hdata & H4 & Hval); [lia |].
  exists trk, lenfield. repeat split; try assumption. lia.
Qed.

Lemma command_line_file_well_formed_witness :
  (8 ≤ 8)%nat ∧ 120 ≠ 0 ∧ Z.of_nat (length (runes "sos")) ≤ 85899345 ∧
  ∃ trk lenfield,
    buildTrack 8 (textToMorse identity_table (runes "sos")) 120 = Ret trk ∧
    midiData 8 (textToMorse identity_table (runes "sos")) 120
    = Ret (header ++ trackHeader ++ lenfield ++ trk) ∧
    length lenfield = 4%nat ∧
    be_val lenfield = Z.of_nat (length trk) ∧
    (length trk ≤ 50 * length (runes "sos") + 12)%nat.
Proof.
  assert (H : Z.of_nat (length (runes "sos")) ≤ 85899345) by (simpl; lia).
  split; [lia |]. split; [discriminate |]. split; [exact H |].
  apply (command_line_file_well_formed identity_table 8 (runes "sos") 120);
    [lia | discriminate | exact H].
Defined.
